(** * coc-snippets: snippet matching, conflict resolution and regex translation

    A shallow embedding of the parts of [UltiSnippetsProvider]
    (src/unnamed/part_000), [ProviderManager] (src/src/provider.ts) and
    util (second half of src/src/provider.ts), with the properties the
    specification states about them and further properties of the code. *)

From Stdlib Require Import Ascii String.
From stdpp Require Import base list gmap.

Local Open Scope Z_scope.

(** ** JavaScript strings

    A JavaScript string is a sequence of UTF-16 code units; a code unit is
    modelled as an [N], a string as a list of them. *)

Definition jsstring := list N.

(** String literals: every character of the Rocq literal is one code unit. *)
Fixpoint js (s : string) : jsstring :=
  match s with
  | EmptyString => []
  | String c s' => N_of_ascii c :: js s'
  end.

(** [a == b] on strings. *)
Definition streq (a b : jsstring) : bool := bool_decide (a = b).

(** [s.startsWith(p)] *)
Fixpoint startsWith (s p : jsstring) {struct p} : bool :=
  match p with
  | [] => true
  | c :: p' =>
      match s with
      | [] => false
      | d :: s' => bool_decide (d = c) && startsWith s' p'
      end
  end.

(** [s.endsWith(p)]: the last [p.length] code units of [s] are [p]. *)
Definition endsWith (s p : jsstring) : bool :=
  bool_decide (length p <= length s)%nat &&
  streq (drop (length s - length p) s) p.

(** [s.indexOf(p) !== -1] *)
Fixpoint includes (s p : jsstring) : bool :=
  startsWith s p ||
  match s with
  | [] => false
  | _ :: s' => includes s' p
  end.

(** [l.indexOf(x) !== -1] on an array of strings. *)
Definition arrayIncludes (l : list jsstring) (x : jsstring) : bool :=
  existsb (streq x) l.

(** White space and line terminators of ECMAScript: what [\s] matches and
    what [trim] strips. *)
Definition isWhiteSpace (c : N) : bool :=
  ((9 <=? c) && (c <=? 13) || (c =? 32) || (c =? 160) || (c =? 5760) ||
   (8192 <=? c) && (c <=? 8202) || (c =? 8232) || (c =? 8233) ||
   (c =? 8239) || (c =? 8287) || (c =? 12288) || (c =? 65279))%N.

(** Line terminators: what [.] does not match. *)
Definition isLineTerminator (c : N) : bool :=
  ((c =? 10) || (c =? 13) || (c =? 8232) || (c =? 8233))%N.

(** [\w]: ASCII letters, digits and the underscore. *)
Definition isWordChar (c : N) : bool :=
  ((48 <=? c) && (c <=? 57) || (65 <=? c) && (c <=? 90) || (c =? 95) ||
   (97 <=? c) && (c <=? 122))%N.

(** [\d] *)
Definition isDigit (c : N) : bool := ((48 <=? c) && (c <=? 57))%N.

Fixpoint trimStart (s : jsstring) : jsstring :=
  match s with
  | [] => []
  | c :: s' => if isWhiteSpace c then trimStart s' else s
  end.

(** [s.trim()] *)
Definition trim (s : jsstring) : jsstring :=
  rev (trimStart (rev (trimStart s))).

(** ** Arrays and optional values *)

(** Truthiness of an optional object. *)
Definition isSome {A} (o : option A) : bool :=
  match o with
  | Some _ => true
  | None => false
  end.

(** [l.findIndex(p)]: [None] stands for -1. *)
Fixpoint findIndex {A} (p : A -> bool) (l : list A) : option nat :=
  match l with
  | [] => None
  | x :: l' => if p x then Some 0%nat else S <$> findIndex p l'
  end.

(** [Array.prototype.sort(comparefn)].  The sort is stable, and an element
    is taken to move in front of an earlier one exactly when
    [comparefn(later, earlier)] is negative, which is how V8 consults the
    comparator; it is written here as an insertion sort that does this.
    On a consistent comparator, as [compareContext] below, every stable
    sort gives the same result.  [compareFiles] is not consistent (for two
    files of one filetype it returns 1 in both argument orders); the
    evaluations below only compare a file of the exact filetype with a file
    of another filetype, where both argument orders agree. *)
Fixpoint insertSorted {A} (cmp : A -> A -> Z) (x : A) (l : list A) : list A :=
  match l with
  | [] => [x]
  | e :: l' => if cmp x e <? 0 then x :: l else e :: insertSorted cmp x l'
  end.

Definition sortBy {A} (cmp : A -> A -> Z) (l : list A) : list A :=
  fold_left (fun acc x => insertSorted cmp x acc) l [].

(** ** More of strings and arrays *)

(** [s.slice(b, e)]: a negative index counts from the end. *)
Definition slice (s : jsstring) (b e : Z) : jsstring :=
  let len := Z.of_nat (length s) in
  let from := if b <? 0 then Z.max (len + b) 0 else Z.min b len in
  let to := if e <? 0 then Z.max (len + e) 0 else Z.min e len in
  take (Z.to_nat (to - from)) (drop (Z.to_nat from) s).

(** [s.split(c)] for a separator [c] of one code unit: the pieces between
    the occurrences of [c]; there is always at least one piece. *)
Fixpoint splitOn (c : N) (s : jsstring) : list jsstring :=
  match s with
  | [] => [[]]
  | d :: s' =>
      if (d =? c)%N then [] :: splitOn c s'
      else
        match splitOn c s' with
        | piece :: rest => (d :: piece) :: rest
        | [] => [[d]]
        end
  end.

(** [l.join(sep)] *)
Fixpoint joinWith (sep : jsstring) (l : list jsstring) : jsstring :=
  match l with
  | [] => []
  | [x] => x
  | x :: rest => x ++ sep ++ joinWith sep rest
  end.

(** [res + s[i]]: what [s[i]] adds to a string; outside the string [s[i]]
    is [undefined]. *)
Definition charText (s : jsstring) (i : Z) : jsstring :=
  if i <? 0 then js "undefined"
  else
    match s !! Z.to_nat i with
    | Some c => [c]
    | None => js "undefined"
    end.




(** ** Regular expressions

    The expressions of the source, as syntax, and the backtracking matcher
    that gives them their meaning.  Quantifiers occur in the source on
    single characters and classes only ([\w+], [\d+], [.+], [.*?],
    [[^}]+]), and that is what [Plus] and [LazyStar] take. *)

Inductive Re : Type :=
  | Eps                          (* the empty expression *)
  | Chr (c : N)                  (* a literal character *)
  | Class (p : N -> bool)        (* one character of a class: \w, \d, . *)
  | Cat (a b : Re)               (* a followed by b *)
  | Or (a b : Re)                (* a|b *)
  | Plus (p : N -> bool)         (* p+, greedy *)
  | LazyStar (p : N -> bool)     (* p*?, lazy *)
  | Opt (a : Re)                 (* (?:a)?, greedy *)
  | Group (i : nat) (a : Re).    (* (a), the capturing group number i *)

(** A literal text, character by character. *)
Fixpoint Str (l : jsstring) : Re :=
  match l with
  | [] => Eps
  | c :: l' => Cat (Chr c) (Str l')
  end.

(** [.]: any character but a line terminator. *)
Definition dot (c : N) : bool := negb (isLineTerminator c).

(** [p*] greedy, then [k] on the rest: the longest run first, giving
    characters back one by one while [k] fails. *)
Fixpoint greedyStar {T} (p : N -> bool) (s : jsstring)
    (k : jsstring -> option T) : option T :=
  match s with
  | c :: s' =>
      if p c then
        match greedyStar p s' k with
        | Some x => Some x
        | None => k s
        end
      else k s
  | [] => k s
  end.

(** [p*?] lazy, then [k] on the rest: the shortest run first, taking one
    more character while [k] fails. *)
Fixpoint lazyStar {T} (p : N -> bool) (s : jsstring)
    (k : jsstring -> option T) : option T :=
  match k s with
  | Some x => Some x
  | None =>
      match s with
      | c :: s' => if p c then lazyStar p s' k else None
      | [] => None
      end
  end.

(** [matchRe r s caps k]: match [r] at the start of [s] with the captures
    [caps] so far, then continue with [k] on the rest of the string and the
    captures; a [None] from [k] makes the matcher try its next choice. *)
Fixpoint matchRe {T} (r : Re) (s : jsstring) (caps : gmap nat jsstring)
    (k : jsstring -> gmap nat jsstring -> option T) : option T :=
  match r with
  | Eps => k s caps
  | Chr c =>
      match s with
      | d :: s' => if (d =? c)%N then k s' caps else None
      | [] => None
      end
  | Class p =>
      match s with
      | d :: s' => if p d then k s' caps else None
      | [] => None
      end
  | Cat a b => matchRe a s caps (fun s' caps' => matchRe b s' caps' k)
  | Or a b =>
      match matchRe a s caps k with
      | Some x => Some x
      | None => matchRe b s caps k
      end
  | Plus p =>
      match s with
      | d :: s' => if p d then greedyStar p s' (fun rest => k rest caps) else None
      | [] => None
      end
  | LazyStar p => lazyStar p s (fun rest => k rest caps)
  | Opt a =>
      match matchRe a s caps k with
      | Some x => Some x
      | None => k s caps
      end
  | Group i a =>
      matchRe a s caps
        (fun s' caps' => k s' (<[i := take (length s - length s') s]> caps'))
  end.

(** The match of [r] at the start of [s]: its length and its captures. *)
Definition execAt (r : Re) (s : jsstring) : option (nat * gmap nat jsstring) :=
  matchRe r s ∅ (fun rest caps => Some (length s - length rest, caps)%nat).

(** ** Global regular expressions

    [scan matchAt 0 s] walks [s] the way a regular expression with the [g]
    flag does, in [str.replace(re, f)] and in a [while (r = re.exec(str))]
    loop: at each index the expression is tried ([matchAt] on the rest of
    the string gives the length of the match there and what it captured);
    after a match the walk resumes behind it, otherwise one code unit is
    passed over.  The result lists the code units passed over ([inl]) and
    the matches ([inr]) in order.  [skip] counts the code units of the last
    match still to step over; no expression below matches the empty
    string. *)
Fixpoint scan {R} (matchAt : jsstring -> option (nat * R)) (skip : nat)
    (s : jsstring) : list (N + R) :=
  match s with
  | [] => []
  | c :: rest =>
      match skip with
      | S k => scan matchAt k rest
      | O =>
          match matchAt s with
          | Some (len, r) => inr r :: scan matchAt (Nat.pred len) rest
          | None => inl c :: scan matchAt 0 rest
          end
      end
  end.

(** [str.replace(re, f)] for a global [re]. *)
Definition replaceAll {R} (matchAt : jsstring -> option (nat * R))
    (f : R -> jsstring) (s : jsstring) : jsstring :=
  concat (map (fun p => match p with inl c => [c] | inr r => f r end)
              (scan matchAt 0 s)).

(** The successive results of [re.exec(str)] for a global [re]. *)
Definition execAll {R} (matchAt : jsstring -> option (nat * R))
    (s : jsstring) : list R :=
  omap (fun p => match p with inl _ => None | inr r => Some r end)
       (scan matchAt 0 s).

(** A match at some index of [s]. *)
Fixpoint testAnywhere (matchAt : jsstring -> bool) (s : jsstring) : bool :=
  matchAt s ||
  match s with
  | [] => false
  | _ :: s' => testAnywhere matchAt s'
  end.

(** A match of [r] at the start of [s], when only its length matters. *)
Definition execLength (r : Re) (s : jsstring) : option (nat * unit) :=
  match execAt r s with
  | Some (len, _) => Some (len, tt)
  | None => None
  end.

(** [re.test(str)] for a [re] without flags. *)
Definition test (r : Re) (s : jsstring) : bool :=
  testAnywhere (fun t => isSome (execAt r t)) s.

(** The length of the longest prefix of [s] whose code units satisfy [p]
    (what a greedy [\w+] or [\d+] takes when nothing is given back). *)
Fixpoint runLength (p : N -> bool) (s : jsstring) : nat :=
  match s with
  | c :: s' => if p c then S (runLength p s') else 0%nat
  | [] => 0%nat
  end.

(** A computation that may throw an [Error] with a message. *)
Inductive Except (A : Type) : Type :=
  | Return (a : A)
  | Throw (message : jsstring).
Arguments Return {A} a.
Arguments Throw {A} message.

(** ** util: convertRegex (second half of src/src/provider.ts) *)

Module Util.

(** [conditionRe = /\(\?\(\?:\w+\).+\|/] *)
Definition conditionRe : Re :=
  Cat (Str (js "(?(?:")) (Cat (Plus isWordChar) (Cat (Chr 41)
    (Cat (Plus dot) (Chr 124)))).

(** [bellRe = /\\a/] *)
Definition bellRe : Re := Str (js "\a").

(** [commentRe = /\(\?#.*?\)/] *)
Definition commentRe : Re :=
  Cat (Str (js "(?#")) (Cat (LazyStar dot) (Chr 41)).

(** [stringStartRe = /\\A/] *)
Definition stringStartRe : Re := Str (js "\A").

(** [namedCaptureRe = /\(\?P<\w+>.*?\)/] *)
Definition namedCaptureRe : Re :=
  Cat (Str (js "(?P<")) (Cat (Plus isWordChar) (Cat (Chr 62)
    (Cat (LazyStar dot) (Chr 41)))).

(** [namedReferenceRe = /\(\?P=(\w+)\)/] *)
Definition namedReferenceRe : Re :=
  Cat (Str (js "(?P=")) (Cat (Group 1 (Plus isWordChar)) (Chr 41)).

(** [braceRe = /\^\]/] *)
Definition braceRe : Re := Str (js "^]").

(** What [${re}] puts into a template: the text of the expression with its
    slashes, [/source/].  Compiled as part of a pattern, the slashes are
    literal characters around the expression. *)
Definition interpolated (r : Re) : Re := Cat (Chr 47) (Cat r (Chr 47)).

(** [regex]: the pattern is
    [${bellRe.source}|${commentRe.source}|${stringStartRe.source}|]
    [${namedCaptureRe.source}|${namedReferenceRe.source}|${braceRe}].  The
    last alternative is [${braceRe}], without [.source]. *)
Definition regex : Re :=
  Or bellRe (Or commentRe (Or stringStartRe (Or namedCaptureRe
    (Or namedReferenceRe (interpolated braceRe))))).

(** What the callback of [str.replace(regex, ...)] receives for a match at
    the start of [s]: the matched text and the group [p1]; with it, the
    length of the match. *)
Definition regexExec (s : jsstring)
  : option (nat * (jsstring * option jsstring)) :=
  match execAt regex s with
  | Some (len, caps) => Some (len, (take len s, caps !! 1%nat))
  | None => None
  end.

(** The callback [(match, p1) => ...] of [str.replace(regex, ...)]. *)
Definition replacer (m : jsstring * option jsstring) : jsstring :=
  let '(mt, p1) := m in
  if streq mt (js "^]") then js "^\]"
  else if streq mt (js "\a") then []
  else if startsWith mt (js "(?#") then []
  else if streq mt (js "\A") then js "^"
  else if startsWith mt (js "(?P<") then js "(?" ++ drop 3 mt
  else if startsWith mt (js "(?P=") then
    js "\k<" ++ default (js "undefined") p1 ++ js ">"
  else [].

Definition convertRegex (str : jsstring) : Except jsstring :=
  if includes str (js "\z") then Throw (js "pattern \z not supported")
  else if includes str (js "(?s)") then Throw (js "pattern (?s) not supported")
  else if includes str (js "(?x)") then Throw (js "pattern (?x) not supported")
  else if includes str [10%N] then Throw (js "multiple line pattern not supported")
  else if test conditionRe str then
    Throw (js "condition pattern not supported")
  else Return (replaceAll regexExec replacer str).

(** The five tests that make [convertRegex] throw. *)
Definition unsupported (str : jsstring) : bool :=
  includes str (js "\z") || includes str (js "(?s)") ||
  includes str (js "(?x)") || includes str [10%N] ||
  test conditionRe str.

(** [regex] matches somewhere in [str]: the pattern still holds a
    construct that [convertRegex] rewrites. *)
Definition rewritable (str : jsstring) : bool := test regex str.

(** *** Patterns whose constructs stand apart

    The class of patterns for which a second translation changes nothing:
    see [convertRegex_idempotent] below. *)

(** The ways a rejected or a rewritten construct can begin: a backslash
    before [a], [A] or [z]; [(?] before [#], [P], [s], [x] or [(]; [/^];
    a line feed. *)
Definition startsHead (s : jsstring) : bool :=
  match s with
  | c :: rest =>
      (c =? 10)%N ||
      match rest with
      | d :: rest' =>
          (c =? 92)%N && ((d =? 97) || (d =? 65) || (d =? 122))%N ||
          (c =? 47)%N && (d =? 94)%N ||
          (c =? 40)%N && (d =? 63)%N &&
          match rest' with
          | e :: _ =>
              ((e =? 35) || (e =? 80) || (e =? 115) || (e =? 120) ||
               (e =? 40))%N
          | [] => false
          end
      | [] => false
      end
  | [] => false
  end.

(** No construct begins anywhere in [s]. *)
Fixpoint calm (s : jsstring) : bool :=
  match s with
  | [] => true
  | _ :: rest => negb (startsHead s) && calm rest
  end.

(** [s] does not end in the beginning of a construct: its last character
    is none of the backslash, [(], [?] and [/]. *)
Definition closedEnd (s : jsstring) : bool :=
  match last s with
  | Some c => negb ((c =? 92) || (c =? 40) || (c =? 63) || (c =? 47))%N
  | None => true
  end.

(** The pieces of a pattern as [str.replace(regex, ...)] walks it: a
    character passed over, or a match with its group [p1]. *)
Definition Piece : Type := N + (jsstring * option jsstring).

(** The character the translation puts right behind a place of the
    pattern, when the pieces that follow are [rest]: constructs that are
    deleted are passed; [None] when nothing follows. *)
Fixpoint nextRendered (rest : list Piece) : option N :=
  match rest with
  | [] => None
  | inl d :: _ => Some d
  | inr m :: rest' =>
      match replacer m with
      | d :: _ => Some d
      | [] => nextRendered rest'
      end
  end.

(** The pieces behind that character, when it is a character of the
    pattern that is passed over. *)
Fixpoint behindNext (rest : list Piece) : option (list Piece) :=
  match rest with
  | [] => None
  | inl _ :: rest' => Some rest'
  | inr m :: rest' =>
      match replacer m with
      | _ :: _ => None
      | [] => behindNext rest'
      end
  end.

(** A character [c] passed over begins no construct in the translation:
    behind a backslash comes none of [a], [A], [z]; behind a [/] no [^];
    behind a [(] no [?] that is followed by one of [#], [P], [s], [x],
    [(]. *)
Definition charOk (c : N) (rest : list Piece) : bool :=
  if (c =? 10)%N then false
  else if (c =? 92)%N then
    match nextRendered rest with
    | None => true
    | Some d => negb ((d =? 97) || (d =? 65) || (d =? 122))%N
    end
  else if (c =? 47)%N then
    match nextRendered rest with
    | None => true
    | Some d => negb (d =? 94)%N
    end
  else if (c =? 40)%N then
    match nextRendered rest with
    | None => true
    | Some d =>
        if (d =? 63)%N then
          match behindNext rest with
          | Some rest' =>
              match nextRendered rest' with
              | None => true
              | Some e =>
                  negb ((e =? 35) || (e =? 80) || (e =? 115) ||
                        (e =? 120) || (e =? 40))%N
              end
          | None => false
          end
        else true
    end
  else true.

(** Every character passed over is [charOk], and what replaces a match
    (for a named group: its name and body) holds no beginning of a
    construct and does not end in the beginning of one. *)
Fixpoint isolatedPieces (pieces : list Piece) : bool :=
  match pieces with
  | [] => true
  | inl c :: rest => charOk c rest && isolatedPieces rest
  | inr m :: rest =>
      calm (replacer m) && closedEnd (replacer m) && isolatedPieces rest
  end.

Definition isolated (str : jsstring) : bool :=
  isolatedPieces (scan regexExec 0 str).

(** *** The other functions of util *)

Definition BASE64 : jsstring :=
  js "0123456789ABCDEFGHIJKLMNOPQRSTUVWXYZabcdefghijklmnopqrstuvwxyz-_".

(** [tostr(bytes)]: [bytes] is a [Uint8Array]. *)
Definition tostr (bytes : list N) : jsstring :=
  concat (map (fun b => match BASE64 !! N.to_nat (b mod 64) with
                        | Some c => [c]
                        | None => []
                        end) bytes).

(** [ReplaceItem] of types.ts; [ri_length] is its field [length]. *)
Record ReplaceItem : Type := {
  ri_index : Z;
  ri_length : Z;
  ri_newText : jsstring
}.

(** The loop [for (let i = 0; i < content.length; i++)] of [replaceText],
    from [i] on, with the text [res] built so far.  [item] is never
    assigned in the loop.  The loop need not end (an item of negative
    length sends [i] back): [fuel] bounds the number of rounds, and [None]
    says that they did not suffice. *)
Fixpoint replaceLoop (fuel : nat) (content : jsstring)
    (item : option ReplaceItem) (i : Z) (res : jsstring) : option jsstring :=
  match fuel with
  | O => None
  | S fuel' =>
      if i <? Z.of_nat (length content) then
        match item with
        | Some it =>
            if i =? ri_index it
            then replaceLoop fuel' content item (i + ri_length it + 1)
                   (res ++ ri_newText it)
            else replaceLoop fuel' content item (i + 1)
                   (res ++ charText content i)
        | None =>
            replaceLoop fuel' content item (i + 1) (res ++ charText content i)
        end
      else Some res
  end.

(** [items.sort((a, b) => a.index - b.index)], then [items.shift()], then
    the loop. *)
Definition replaceText (fuel : nat) (content : jsstring)
    (items : list ReplaceItem) : option jsstring :=
  let items := sortBy (fun a b => ri_index a - ri_index b) items in
  replaceLoop fuel content (head items) 0 [].

(** [arr.reduce((p, curr) => p.concat(curr), [])] *)
Definition flatten {T} (arr : list (list T)) : list T :=
  fold_left (fun p curr => p ++ curr) arr [].

(** The expression of [line.match] in [headTail]: [^], a group of [\S+],
    then [\s+], then a group of a greedy run of [.].  The greedy run is
    written as an optional [.+], which tries the same runs in the same
    order. *)
Definition headTailRe : Re :=
  Cat (Group 1 (Plus (fun c => negb (isWhiteSpace c))))
    (Cat (Plus isWhiteSpace) (Group 2 (Opt (Plus dot)))).

(** The expression is anchored and has no flags: it is tried at the start
    of the line only. *)
Definition headTail (line : jsstring) : jsstring * jsstring :=
  let line := trim line in
  match execAt headTailRe line with
  | None => (line, [])
  | Some (_, caps) => (default [] (caps !! 1%nat), default [] (caps !! 2%nat))
  end.

Definition trimQuote (str : jsstring) : jsstring :=
  if startsWith str [34%N] || startsWith str [39%N] then slice str 1 (-1)
  else str.

Section Distinct.

Context {T : Type} `{EqDecision T}.



(** The callback of [array.filter] when there is a [keyFn]: the state is
    the object [seen] and the elements kept so far. *)
Definition distinctStep (keyFn : T -> jsstring)
    (st : gset jsstring * list T) (elem : T) : gset jsstring * list T :=
  let key := keyFn elem in
  if bool_decide (key ∈ fst st) then st
  else ({[key]} ∪ fst st, snd st ++ [elem]).

(** [distinct(array, keyFn)] *)
Definition distinctBy (keyFn : T -> jsstring) (array : list T) : list T :=
  snd (fold_left (distinctStep keyFn) array (∅, [])).

End Distinct.

(** [/\(.*\)\??/g]; the greedy run of [.] is written as an optional
    [.+]. *)
Definition groupRe : Re :=
  Cat (Chr 40) (Cat (Opt (Plus dot)) (Cat (Chr 41) (Opt (Chr 63)))).

Definition getRegexText (prefix : jsstring) : jsstring :=
  let prefix := if startsWith prefix (js "^") then drop 1 prefix else prefix in
  let prefix := if endsWith prefix (js "$") then slice prefix 0 (-1) else prefix in
  let content := replaceAll (execLength groupRe) (fun _ => []) prefix in
  replaceAll (execLength (Chr 92)) (fun _ => []) content.

End Util.

(** *** The alternatives of [regex], computed directly

    What each alternative of [Util.regex] matches at the start of a string,
    written without the matcher; [regexExec_direct] below proves that
    [Direct.regexExec] is [Util.regexExec]. *)

Module Direct.

(** [.*?\)]: the length up to and including the first [)], which no line
    terminator may precede. *)
Fixpoint lazyDotsParen (s : jsstring) : option nat :=
  match s with
  | [] => None
  | c :: s' =>
      if (c =? 41)%N then Some 1%nat
      else if isLineTerminator c then None
      else S <$> lazyDotsParen s'
  end.

Definition bellRe (s : jsstring) : option nat :=
  if startsWith s (js "\a") then Some 2%nat else None.

Definition commentRe (s : jsstring) : option nat :=
  if startsWith s (js "(?#")
  then (fun n => 3 + n)%nat <$> lazyDotsParen (drop 3 s)
  else None.

Definition stringStartRe (s : jsstring) : option nat :=
  if startsWith s (js "\A") then Some 2%nat else None.

Definition namedCaptureRe (s : jsstring) : option nat :=
  if startsWith s (js "(?P<") then
    let r := drop 4 s in
    let n := runLength isWordChar r in
    if (n =? 0)%nat then None
    else
      match drop n r with
      | c :: t =>
          if (c =? 62)%N then (fun k => 4 + n + 1 + k)%nat <$> lazyDotsParen t
          else None
      | [] => None
      end
  else None.

Definition namedReferenceRe (s : jsstring) : option (nat * jsstring) :=
  if startsWith s (js "(?P=") then
    let r := drop 4 s in
    let n := runLength isWordChar r in
    if (n =? 0)%nat then None
    else
      match drop n r with
      | c :: _ => if (c =? 41)%N then Some (4 + n + 1, take n r)%nat else None
      | [] => None
      end
  else None.

Definition braceReText (s : jsstring) : option nat :=
  if startsWith s (js "/^]/") then Some 4%nat else None.

Definition regexExec (s : jsstring)
  : option (nat * (jsstring * option jsstring)) :=
  let whole n := Some (n, (take n s, None)) in
  match bellRe s with
  | Some n => whole n
  | None =>
  match commentRe s with
  | Some n => whole n
  | None =>
  match stringStartRe s with
  | Some n => whole n
  | None =>
  match namedCaptureRe s with
  | Some n => whole n
  | None =>
  match namedReferenceRe s with
  | Some (n, g) => Some (n, (take n s, Some g))
  | None =>
  match braceReText s with
  | Some n => whole n
  | None => None
  end end end end end end.

End Direct.

(** ** Data model (types.ts, as the two source files use it) *)

Inductive TriggerKind : Type :=
  | SpaceBefore
  | LineBegin
  | WordBoundary
  | InWord.

Definition TriggerKind_eqb (a b : TriggerKind) : bool :=
  match a, b with
  | SpaceBefore, SpaceBefore | LineBegin, LineBegin
  | WordBoundary, WordBoundary | InWord, InWord => true
  | _, _ => false
  end.

(** A compiled [RegExp]: its source text and what [line.match(regex)] gives,
    [None] for no match and the matched text [ms[0]] otherwise. *)
Record RegExp : Type := {
  re_source : jsstring;
  re_match : jsstring -> option jsstring
}.

Record Snippet : Type := {
  filepath : jsstring;
  body : jsstring;
  prefix : jsstring;
  description : jsstring;
  triggerKind : TriggerKind;
  priority : Z;
  regex : option RegExp;
  originRegex : option jsstring;
  autoTrigger : bool;
  context : option jsstring
}.

Record UltiSnipsFile : Type := {
  extendFiletypes : list jsstring;
  clearsnippets : option Z;
  directory : jsstring;
  file_filepath : jsstring;
  filetype : jsstring;
  snippets : list Snippet
}.

Record Position : Type := { line : Z; character : Z }.

Record Range : Type := { range_start : Position; range_end : Position }.

Record SnippetEdit : Type := {
  edit_range : Range;
  edit_newText : jsstring;
  edit_prefix : jsstring;
  edit_location : jsstring;
  edit_description : jsstring;
  edit_priority : Z
}.

(** The host's document: its filetype, its lines and its word
    classification [isWord] (which follows the buffer's keyword setting). *)
Record Document : Type := {
  doc_filetype : jsstring;
  getline : Z -> jsstring;
  isWord : N -> bool
}.

(** Truthiness of an optional string: [undefined] and the empty string are
    falsy. *)
Definition truthy (s : option jsstring) : bool :=
  match s with
  | Some (_ :: _) => true
  | _ => false
  end.

(** [s.slice(0, e)] *)
Definition slice0 (s : jsstring) (e : Z) : jsstring :=
  let len := Z.of_nat (length s) in
  let to := if e <? 0 then Z.max (len + e) 0 else Z.min e len in
  take (Z.to_nat to) s.

(** ** UltiSnippetsProvider (src/unnamed/part_000) *)

Module UltiSnippetsProvider.

Section Provider.

(** [BaseProvider.getFiletypes], which is not part of the two source files:
    the filetypes a filetype resolves to (itself and what it extends). *)
Variable getFiletypes : jsstring -> list jsstring.

(** *** getSnippets *)

(** The comparator of [snippetFiles.sort]. *)
Definition compareFiles (ft : jsstring) (a b : UltiSnipsFile) : Z :=
  if streq (filetype a) (filetype b) then 1
  else if streq (filetype a) ft then -1
  else 1.

(** The comparator of [result.sort] and [snippets.sort]: snippets with a
    context go first. *)
Definition compareContext (a b : Snippet) : Z :=
  if truthy (context a) && negb (truthy (context b)) then -1
  else if truthy (context b) && negb (truthy (context a)) then 1
  else 0.

(** [min = min ? Math.max(min, clearsnippets) : clearsnippets], run when
    [clearsnippets] is a number.  [min ? .. : ..] tests truthiness: both
    [null] and [0] take the second branch. *)
Definition updateMin (min : option Z) (clear : option Z) : option Z :=
  match clear with
  | Some c =>
      match min with
      | Some m => if m =? 0 then Some c else Some (Z.max m c)
      | None => Some c
      end
  | None => min
  end.

Definition sameTrigger (snip o : Snippet) : bool :=
  streq (prefix o) (prefix snip) &&
  TriggerKind_eqb (triggerKind o) (triggerKind snip).

(** A definition with neither [regex] nor [context], and what such
    definitions are compared by. *)
Definition isPlain (s : Snippet) : bool :=
  negb (isSome (regex s) || truthy (context s)).

Definition triggerKey (s : Snippet) : jsstring * TriggerKind :=
  (prefix s, triggerKind s).

(** The body of [for (let snip of snippets)]. *)
Definition addSnippet (result : list Snippet) (snip : Snippet) : list Snippet :=
  if isSome (regex snip) || truthy (context snip) then result ++ [snip]
  else
    match findIndex (sameTrigger snip) result with
    | None => result ++ [snip]
    | Some idx =>
        match result !! idx with
        | Some item =>
            if priority snip >? priority item
            then <[idx := item]> result   (* result[idx] = item *)
            else result
        | None => result
        end
    end.

(** The body of [for (let file of snippetFiles)]. *)
Definition addFile (st : option Z * list Snippet) (file : UltiSnipsFile)
  : option Z * list Snippet :=
  (updateMin (fst st) (clearsnippets file),
   fold_left addSnippet (snippets file) (snd st)).

Definition getSnippets (snippetFiles : list UltiSnipsFile) (ft : jsstring)
  : list Snippet :=
  let filetypes := getFiletypes ft ++ [js "all"] in
  let files :=
    List.filter (fun o => arrayIncludes filetypes (filetype o)) snippetFiles in
  let files := sortBy (compareFiles ft) files in
  let '(min, result) := fold_left addFile files (None, []) in
  let result :=
    match min with
    | Some m => List.filter (fun o => priority o >=? m) result
    | None => result
    end in
  sortBy compareContext result.

(** The definitions of the files of the scope, in the order the two loops
    of [getSnippets] meet them. *)
Definition definitionsInOrder (snippetFiles : list UltiSnipsFile)
    (ft : jsstring) : list Snippet :=
  let filetypes := getFiletypes ft ++ [js "all"] in
  flat_map snippets
    (sortBy (compareFiles ft)
       (List.filter (fun o => arrayIncludes filetypes (filetype o))
          snippetFiles)).

(** The value of [min] after the loops: the threshold [getSnippets]
    filters by, if any. *)
Definition clearThreshold (snippetFiles : list UltiSnipsFile)
    (ft : jsstring) : option Z :=
  let filetypes := getFiletypes ft ++ [js "all"] in
  fold_left updateMin
    (map clearsnippets
       (sortBy (compareFiles ft)
          (List.filter (fun o => arrayIncludes filetypes (filetype o))
             snippetFiles)))
    None.

(** The maximum of the thresholds met so far, as the specification
    combines them: only a missing threshold counts as unset. *)
Definition maxThreshold (min : option Z) (clear : option Z) : option Z :=
  match clear with
  | Some c =>
      match min with
      | Some m => Some (Z.max m c)
      | None => Some c
      end
  | None => min
  end.

(** *** getTriggerSnippets *)

(** The external evaluator (the editor's Python), reached through the
    editor: [W] is its state.  [checkContext] returns the truthiness of a
    context expression; [resolveSnippetBody] returns the text to insert. *)
Variable W : Type.
Variable checkContext : jsstring -> W -> bool * W.
Variable resolveSnippetBody : Snippet -> Range -> jsstring -> W -> jsstring * W.

(** What the trigger is compared with: the text the [regex] matched, or
    the literal [prefix]; [None] when the regex does not match. *)
Definition matchedPrefix (ln : jsstring) (s : Snippet) : option jsstring :=
  match regex s with
  | Some re => re_match re ln
  | None => Some (prefix s)
  end.

(** The callback of [snippets.filter]; [auto] is the caller's optional
    [autoTrigger] argument ([undefined] is [false]). *)
Definition triggerFilter (document : Document) (ln : jsstring) (auto : bool)
    (s : Snippet) : bool :=
  if auto && negb (autoTrigger s) then false
  else
    match matchedPrefix ln s with
    | None => false
    | Some p =>
        if negb (endsWith ln p) then false
        else
          let pre := take (length ln - length p) ln in
          match triggerKind s with
          | InWord => true
          | LineBegin => streq (trim pre) []
          | SpaceBefore =>
              (length pre =? 0)%nat ||
              match last pre with
              | Some c => isWhiteSpace c
              | None => false
              end
          | WordBoundary =>
              (length pre =? 0)%nat ||
              match last pre with
              | Some c => negb (isWord document c)
              | None => false
              end
          end
    end.

Definition makeEdit (ln : jsstring) (position : Position) (s : Snippet)
    (w : W) : SnippetEdit * W :=
  let chr :=
    match regex s with
    | None => character position - Z.of_nat (length (prefix s))
    | Some re =>
        character position -
        Z.of_nat (length (default [] (re_match re ln)))
    end in
  let range :=
    {| range_start := {| line := line position; character := chr |};
       range_end := {| line := line position;
                       character := character position |} |} in
  let '(newText, w') := resolveSnippetBody s range ln w in
  ({| edit_prefix := prefix s;
      edit_description := description s;
      edit_location := filepath s;
      edit_priority := priority s;
      edit_range := range;
      edit_newText := newText |}, w').

(** The body of [for (let s of snippets)]: the state is the edits so far,
    [contextPrefixes] and the evaluator. *)
Definition editStep (ln : jsstring) (position : Position)
    (st : list SnippetEdit * list jsstring * W) (s : Snippet)
  : list SnippetEdit * list jsstring * W :=
  let '(edits, contextPrefixes, w) := st in
  if truthy (context s) then
    let '(valid, w1) := checkContext (default [] (context s)) w in
    if negb valid then (edits, contextPrefixes, w1)
    else
      let contextPrefixes := contextPrefixes ++ [default [] (context s)] in
      let '(e, w2) := makeEdit ln position s w1 in
      (edits ++ [e], contextPrefixes, w2)
  else if arrayIncludes contextPrefixes (prefix s) then st
  else
    let '(e, w2) := makeEdit ln position s w in
    (edits ++ [e], contextPrefixes, w2).

Definition getTriggerSnippets (snippetFiles : list UltiSnipsFile)
    (document : Document) (position : Position) (auto : bool) (w : W)
  : list SnippetEdit * W :=
  let snippets := getSnippets snippetFiles (doc_filetype document) in
  let ln := slice0 (getline document (line position)) (character position) in
  if (length ln =? 0)%nat || bool_decide (last ln = Some 32%N) then ([], w)
  else
    let snippets := List.filter (triggerFilter document ln auto) snippets in
    let snippets := sortBy compareContext snippets in
    let '(edits, _, w') := fold_left (editStep ln position) snippets ([], [], w) in
    (edits, w').

(** *** resolveSnippetBody: the placeholder values (lines 141 to 171)

    The part of [resolveSnippetBody] that runs when the body contains a
    Python block: it records, for every placeholder index, the text handed
    to Python as the element of [t] at that index. *)

(** [parser.execute(code, this.pyMethod, ind)]: the evaluation of a shell
    or Vim script block by the editor. *)
Variable execute : jsstring -> W -> jsstring * W.

(** [re = /\$\{(\d+)(?::([^}]+))?\}/g] *)
Definition placeholderRe : Re :=
  Cat (Str (js "${")) (Cat (Group 1 (Plus isDigit))
    (Cat (Opt (Cat (Chr 58)
                 (Group 2 (Plus (fun c => negb (c =? 125)%N)))))
         (Chr 125))).

(** What [r = re.exec(body)] holds for a match at the start of [s]: the
    groups [r[1]] and [r[2]]; with it, the length of the match. *)
Definition placeholderExec (s : jsstring)
  : option (nat * (jsstring * option jsstring)) :=
  match execAt placeholderRe s with
  | Some (len, caps) => Some (len, (default [] (caps !! 1%nat), caps !! 2%nat))
  | None => None
  end.

(** [re = /\$(\d+)/g] *)
Definition tabstopRe : Re := Cat (Chr 36) (Group 1 (Plus isDigit)).

Definition tabstopExec (s : jsstring) : option (nat * jsstring) :=
  match execAt tabstopRe s with
  | Some (len, caps) => Some (len, default [] (caps !! 1%nat))
  | None => None
  end.

(** [parseInt(digits, 10)] on a run of decimal digits. *)
Definition parseInt (digits : jsstring) : N :=
  fold_left (fun acc d => acc * 10 + (d - 48))%N digits 0%N.

(** [/^`!\w/.test(val) && val.endsWith('`')]: the expression is anchored,
    it is tried at the start of [val] only. *)
Definition isCodeBlock (val : jsstring) : bool :=
  isSome (execAt (Cat (Str (js "`!")) (Class isWordChar)) val) &&
  endsWith val (js "`").

(** [val.replace(/'/g, "\\'").replace(/\n/g, '\\n')] *)
Definition escapeValue (val : jsstring) : jsstring :=
  let quoted :=
    replaceAll (execLength (Chr 39)) (fun _ => js "\'") val in
  replaceAll (execLength (Chr 10)) (fun _ => js "\n") quoted.

(** The body of the first [while (r = re.exec(body))] loop. *)
Definition recordDefault (st : gmap N jsstring * W)
    (r : jsstring * option jsstring) : gmap N jsstring * W :=
  let '(values, w) := st in
  let idx := parseInt (fst r) in
  let val := default [] (snd r) in
  let exist := values !! idx in
  if negb (isSome exist) ||
     (negb (length val =? 0)%nat && bool_decide (exist = Some (js "''")))
  then
    let '(val, w) :=
      if isCodeBlock val then
        let code := take (length (drop 1 val) - 1) (drop 1 val) in
        if startsWith code (js "!p") then ([], w) else execute code w
      else (val, w) in
    (<[idx := js "r'" ++ escapeValue val ++ js "'"]> values, w)
  else st.

(** The body of the second loop. *)
Definition recordTabstop (values : gmap N jsstring) (r : jsstring)
  : gmap N jsstring :=
  let idx := parseInt r in
  if negb (isSome (values !! idx)) then <[idx := js "''"]> values else values.

Definition placeholderValues (bdy : jsstring) (w : W) : gmap N jsstring * W :=
  let '(values, w') :=
    fold_left recordDefault (execAll placeholderExec bdy) (∅, w) in
  (fold_left recordTabstop (execAll tabstopExec bdy) values, w').

(** *** getSnippetFiles *)

Definition getSnippetFiles (snippetFiles : list UltiSnipsFile) (ft : jsstring)
  : list jsstring :=
  map file_filepath
    (List.filter (fun s => arrayIncludes (getFiletypes ft) (filetype s))
       snippetFiles).

(** *** resolveSnippetBody: the tuple [t] (lines 172 to 179)

    [entries] is [values.entries()], the entries of the map in the order
    they were set. *)




(** *** addPythonTryCatch *)

(** [isVim] is [workspace.isVim]. *)
Definition addPythonTryCatch (isVim : bool) (code : jsstring) : jsstring :=
  if negb isVim then code
  else
    let lines :=
      [js "import traceback, vim"; js "vim.vars['errmsg'] = ''"; js "try:"] in
    let lines := lines ++ map (fun ln => js "    " ++ ln) (splitOn 10 code) in
    let lines := lines ++ [js "except Exception as e:"] in
    let lines :=
      lines ++ [js "    vim.vars['errmsg'] = traceback.format_exc()"] in
    joinWith [10%N] lines.

(** *** filetypeFromBasename *)


End Provider.

End UltiSnippetsProvider.

(** ** ProviderManager (first half of src/src/provider.ts) *)

Module ProviderManager.

Section Manager.

Variable W : Type.

(** A registered provider, as far as [getTriggerSnippets] uses it: its own
    [getTriggerSnippets(doc, position)]. *)
Definition Provider : Type := Document -> Position -> W -> list SnippetEdit * W.

(** [providers: Map<string, Provider>]: the entries in insertion order. *)
Definition Providers : Type := list (jsstring * Provider).

(** [this.providers.set(name, provider)]: a known name keeps its place. *)
Fixpoint regist (providers : Providers) (provider : Provider) (name : jsstring)
  : Providers :=
  match providers with
  | [] => [(name, provider)]
  | (n, p) :: rest =>
      if streq n name then (n, provider) :: rest
      else (n, p) :: regist rest provider name
  end.

(** [this.providers.delete(name)], what the returned [Disposable] does. *)
Definition dispose (providers : Providers) (name : jsstring) : Providers :=
  List.filter (fun e => negb (streq (fst e) name)) providers.

(** The body of [for (let item of items)]. *)
Definition addItem (edits : list SnippetEdit) (item : SnippetEdit)
  : list SnippetEdit :=
  match findIndex (fun o => streq (edit_prefix o) (edit_prefix item)) edits with
  | None => edits ++ [item]
  | Some _ => edits
  end.

(** The body of [for (let name of names)], on the entry of [name]. *)
Definition addProvider (doc : Document) (position : Position)
    (st : list SnippetEdit * W) (entry : jsstring * Provider)
  : list SnippetEdit * W :=
  let '(items, w') := snd entry doc position (snd st) in
  (fold_left addItem items (fst st), w').

Definition getTriggerSnippets (providers : Providers) (doc : Document)
    (position : Position) (w : W) : list SnippetEdit * W :=
  fold_left (addProvider doc position) providers ([], w).

(** What the providers return, in the order they are asked. *)
Fixpoint providerItems (providers : Providers) (doc : Document)
    (position : Position) (w : W) : list SnippetEdit :=
  match providers with
  | [] => []
  | entry :: rest =>
      let '(items, w') := snd entry doc position w in
      items ++ providerItems rest doc position w'
  end.

(** *** getSnippets *)

(** A registered provider, as far as [getSnippets] uses it: its own
    [getSnippets(filetype)]. *)
Definition SnippetSource : Type := jsstring -> list Snippet.

(** A snippet after [s.provider = name]. *)
Record ProvidedSnippet : Type := {
  snip : Snippet;
  provider : jsstring
}.

(** [ft] is the filetype of [workspace.document]. *)
Definition getSnippets (providers : list (jsstring * SnippetSource))
    (ft : jsstring) : list ProvidedSnippet :=
  Util.flatten
    (map (fun entry =>
            map (fun s => {| snip := s; provider := fst entry |})
                (snd entry ft))
         providers).

(** *** getPrefixHead *)

(** The loop [for (let idx = prefix.length - 1; idx >= 0; idx--)] from
    [idx = n - 1] on: the value of [res] after it. *)
Fixpoint lastNonWord (doc : Document) (pre : jsstring) (n : nat) : nat :=
  match n with
  | O => 0%nat
  | S idx =>
      match pre !! idx with
      | Some c => if negb (isWord doc c) then idx else lastNonWord doc pre idx
      | None => lastNonWord doc pre idx
      end
  end.

Definition getPrefixHead (doc : Document) (pre : jsstring) : jsstring :=
  let res := lastNonWord doc pre (length pre) in
  if (res =? 0)%nat then [] else take (res + 1) pre.

(** *** provideCompletionItems *)

Record TextEdit : Type := { te_range : Range; te_newText : jsstring }.

Record ItemData : Type := {
  data_provider : jsstring;
  data_body : jsstring;
  data_character : option Z
}.

Record CompletionItem : Type := {
  label : jsstring;
  filterText : jsstring;
  detail : jsstring;
  insertTextFormat : Z;
  data : ItemData;
  textEdit : option TextEdit
}.

(** The body of [for (let snip of snippets)]: the item pushed, or [None]
    when the loop continues without one.  [input] and [col] are the fields
    of [context.option], [ahead] is [currline.slice(0, col)]. *)
Definition completionItem (doc : Document) (position : Position)
    (input : jsstring) (col : Z) (ahead : jsstring) (s : ProvidedSnippet)
  : option CompletionItem :=
  let lineBeggining := (length (trim ahead) =? 0)%nat in
  let hd := getPrefixHead doc (prefix (snip s)) in
  if (length hd =? 0)%nat && (length input =? 0)%nat then None
  else
    let dat :=
      {| data_provider := provider s; data_body := body (snip s);
         data_character := None |} in
    let '(lineBeggining, lbl, edit) :=
      if negb (length hd =? 0)%nat && endsWith ahead hd then
        let pre := drop (length hd) (prefix (snip s)) in
        ((length (trim (slice0 ahead (- Z.of_nat (length hd)))) =? 0)%nat,
         pre,
         Some {| te_range :=
                   {| range_start :=
                        {| line := line position;
                           character := col - Z.of_nat (length hd) |};
                      range_end := position |};
                 te_newText := pre |})
      else (lineBeggining, prefix (snip s), None) in
    if TriggerKind_eqb (triggerKind (snip s)) LineBegin && negb lineBeggining
    then None
    else
      let edit :=
        if TriggerKind_eqb (triggerKind (snip s)) InWord then
          if negb (endsWith input (prefix (snip s))) then None
          else
            Some (Some
              {| te_newText := lbl;
                 te_range :=
                   {| range_start :=
                        {| line := line position;
                           character :=
                             character position -
                             Z.of_nat (length (prefix (snip s))) |};
                      range_end :=
                        {| line := line position;
                           character := character position |} |} |})
        else Some edit in
      match edit with
      | None => None
      | Some edit =>
          let edit :=
            match edit with
            | Some e => e
            | None =>
                {| te_range :=
                     {| range_start :=
                          {| line := line position; character := col |};
                        range_end := position |};
                   te_newText := lbl |}
            end in
          Some {| label := lbl; filterText := lbl;
                  detail := description (snip s);
                  insertTextFormat := 2;
                  data :=
                    {| data_provider := data_provider dat;
                       data_body := data_body dat;
                       data_character :=
                         Some (character (range_start (te_range edit))) |};
                  textEdit := Some edit |}
      end.

(** [doc] is [workspace.getDocument(document.uri)], which may be missing;
    [ft] is the filetype of [workspace.document], which [getSnippets]
    reads. *)
Definition provideCompletionItems
    (providers : list (jsstring * SnippetSource)) (ft : jsstring)
    (doc : option Document) (position : Position) (input : jsstring)
    (col : Z) : list CompletionItem :=
  match doc with
  | None => []
  | Some doc =>
      let currline := getline doc (line position) in
      let snippets := getSnippets providers ft in
      let ahead := slice0 currline col in
      omap (completionItem doc position input col ahead) snippets
  end.

End Manager.

End ProviderManager.

(** ** Concrete inputs used in the statements below *)

Module Inputs.

Definition python : jsstring := js "python".

(** Modelled from the spec: [BaseProvider.getFiletypes] is not among the
    source files; a scope sees its own definitions and those of the scopes
    it inherits from, so with nothing inherited a filetype resolves to
    itself. *)
Definition noExtends (ft : jsstring) : list jsstring := [ft].

(** A snippet without [regex] and without [context]. *)
Definition plainSnippet (file trigger text : string) (kind : TriggerKind)
    (prio : Z) : Snippet :=
  {| filepath := js file; body := js text; prefix := js trigger;
     description := []; triggerKind := kind; priority := prio;
     regex := None; originRegex := None; autoTrigger := false;
     context := None |}.

(** A snippet with a [context] expression. *)
Definition contextSnippet (file trigger text guard : string)
    (kind : TriggerKind) (prio : Z) : Snippet :=
  {| filepath := js file; body := js text; prefix := js trigger;
     description := []; triggerKind := kind; priority := prio;
     regex := None; originRegex := None; autoTrigger := false;
     context := Some (js guard) |}.

Definition setAutoTrigger (b : bool) (s : Snippet) : Snippet :=
  {| filepath := filepath s; body := body s; prefix := prefix s;
     description := description s; triggerKind := triggerKind s;
     priority := priority s; regex := regex s; originRegex := originRegex s;
     autoTrigger := b; context := context s |}.

Definition snippetFile (path ft : string) (clear : option Z)
    (l : list Snippet) : UltiSnipsFile :=
  {| extendFiletypes := []; clearsnippets := clear; directory := js "/snips";
     file_filepath := js path; filetype := js ft; snippets := l |}.

(** Two files visible in scope python: A with [imp] at priority 0, B with
    [imp] at priority 10. *)
Definition impA : Snippet :=
  plainSnippet "/snips/python.snippets" "imp" "import ${1}" WordBoundary 0.
Definition impB : Snippet :=
  plainSnippet "/snips/all.snippets" "imp" "from ${1} import ${2}" WordBoundary 10.
Definition fileA : UltiSnipsFile :=
  snippetFile "/snips/python.snippets" "python" None [impA].
Definition fileB : UltiSnipsFile :=
  snippetFile "/snips/all.snippets" "all" None [impB].

(** One file with both definitions, the second under [priority 10]. *)
Definition impLow : Snippet :=
  plainSnippet "/snips/python.snippets" "imp" "import ${1}" WordBoundary 0.
Definition impHigh : Snippet :=
  plainSnippet "/snips/python.snippets" "imp" "from ${1} import ${2}"
    WordBoundary 10.
Definition fileBoth : UltiSnipsFile :=
  snippetFile "/snips/python.snippets" "python" None [impLow; impHigh].

(** [clearsnippets] at priority 0 in python.snippets, and at priority -1 in
    all.snippets, which also defines [x] at priority -1. *)
Definition lowX : Snippet :=
  plainSnippet "/snips/all.snippets" "x" "y" WordBoundary (-1).
Definition clearZero : UltiSnipsFile :=
  snippetFile "/snips/python.snippets" "python" (Some 0) [].
Definition clearMinusOne : UltiSnipsFile :=
  snippetFile "/snips/all.snippets" "all" (Some (-1)) [lowX].

(** A plain [foo] and a guarded [foo] in one file. *)
Definition fooPlain : Snippet :=
  plainSnippet "/snips/python.snippets" "foo" "plain" WordBoundary 0.
Definition fooGuarded : Snippet :=
  contextSnippet "/snips/python.snippets" "foo" "guarded" "True" WordBoundary 0.
Definition fileFoo : UltiSnipsFile :=
  snippetFile "/snips/python.snippets" "python" None [fooPlain; fooGuarded].

(** [foo] with a given trigger kind. *)
Definition fooAt (kind : TriggerKind) : Snippet :=
  plainSnippet "/snips/python.snippets" "foo" "bar" kind 0.

(** An [autoTrigger] snippet. *)
Definition fooAuto : Snippet :=
  setAutoTrigger true
    (plainSnippet "/snips/python.snippets" "foo" "auto" WordBoundary 0).
Definition fileAuto : UltiSnipsFile :=
  snippetFile "/snips/python.snippets" "python" None [fooAuto].

(** The edit that expands [s] at the cursor of column 3, body unresolved. *)
Definition editOf (s : Snippet) : SnippetEdit :=
  {| edit_range :=
       {| range_start := {| line := 0; character := 0 |};
          range_end := {| line := 0; character := 3 |} |};
     edit_newText := body s; edit_prefix := prefix s;
     edit_location := filepath s; edit_description := description s;
     edit_priority := priority s |}.

(** A python buffer whose every line is [text], with the ASCII word
    characters as its keyword characters. *)
Definition buffer (text : string) : Document :=
  {| doc_filetype := python; getline := fun _ => js text;
     isWord := isWordChar |}.

Definition cursor (col : Z) : Position := {| line := 0; character := col |}.

(** An evaluator without state that finds every context true, and a body
    resolution that returns the body as it is. *)
Definition alwaysTrue (_ : jsstring) (w : unit) : bool * unit := (true, w).
Definition bodyAsIs (s : Snippet) (_ : Range) (_ : jsstring) (w : unit)
  : jsstring * unit := (body s, w).
Definition noExecute (_ : jsstring) (w : unit) : jsstring * unit := ([], w).


End Inputs.

(** * Properties *)

Import Inputs.

(** ** Strings *)

Lemma streq_true (a b : jsstring) : streq a b = true <-> a = b.
Proof. unfold streq. apply bool_decide_eq_true. Qed.

Lemma streq_false (a b : jsstring) : streq a b = false <-> a <> b.
Proof. unfold streq. apply bool_decide_eq_false. Qed.

Lemma startsWith_spec (s p : jsstring) :
  startsWith s p = true <-> exists t, s = p ++ t.
Proof.
  revert s. induction p as [|c p IH]; intros s; simpl.
  - split; [intros _; by exists s | done].
  - destruct s as [|d s]; simpl.
    + split; [discriminate | intros [t Ht]; discriminate].
    + rewrite andb_true_iff, bool_decide_eq_true, IH. split.
      * intros [-> [t ->]]. eauto.
      * intros [t Ht]. injection Ht as -> ->. eauto.
Qed.


Lemma trimStart_nil (s : jsstring) :
  trimStart s = [] <-> Forall (fun c => isWhiteSpace c = true) s.
Proof.
  induction s as [|c s IH]; simpl.
  - split; auto.
  - destruct (isWhiteSpace c) eqn:Hc.
    + rewrite IH. split; [by constructor | by inversion 1].
    + split; [discriminate | inversion 1; congruence].
Qed.

Lemma trimStart_head (s t : jsstring) (c : N) :
  trimStart s = c :: t -> isWhiteSpace c = false.
Proof.
  induction s as [|d s IH]; simpl; [discriminate|].
  destruct (isWhiteSpace d) eqn:Hd; [exact IH|].
  intros [= <- _]. exact Hd.
Qed.

(** [s.trim()] is empty exactly when [s] is white space throughout. *)
Lemma trim_nil (s : jsstring) :
  trim s = [] <-> Forall (fun c => isWhiteSpace c = true) s.
Proof.
  unfold trim. split.
  - intros H. apply (f_equal (@rev N)) in H. rewrite rev_involutive in H.
    simpl in H. apply trimStart_nil in H.
    apply trimStart_nil.
    destruct (trimStart s) as [|c t] eqn:Hs; [done|].
    apply trimStart_head in Hs.
    rewrite Forall_forall in H. specialize (H c).
    rewrite H in Hs; [discriminate|].
    apply list_elem_of_In, in_rev. rewrite rev_involutive. by left.
  - intros H. apply trimStart_nil in H. rewrite H. reflexivity.
Qed.

(** ** Arrays *)

Lemma findIndex_None {A} (p : A -> bool) (l : list A) :
  findIndex p l = None <-> Forall (fun x => p x = false) l.
Proof.
  induction l as [|x l IH]; simpl.
  - split; auto.
  - destruct (p x) eqn:Hp.
    + split; [discriminate | inversion 1; congruence].
    + destruct (findIndex p l); simpl.
      * split; [discriminate|]. inversion 1; subst.
        by apply IH in H3.
      * split; [|done]. intros _. constructor; [done | by apply IH].
Qed.

Lemma findIndex_Some {A} (p : A -> bool) (l : list A) (n : nat) :
  findIndex p l = Some n -> exists x, In x l /\ p x = true.
Proof.
  revert n. induction l as [|x l IH]; intros n; simpl; [discriminate|].
  destruct (p x) eqn:Hp.
  - intros _. exists x. split; [by left | done].
  - destruct (findIndex p l) as [k|]; [|discriminate].
    intros _. destruct (IH k eq_refl) as [y [Hy Hpy]].
    exists y. split; [by right | done].
Qed.

Lemma insertSorted_Permutation {A} (cmp : A -> A -> Z) (x : A) (l : list A) :
  Permutation (insertSorted cmp x l) (x :: l).
Proof.
  induction l as [|e l IH]; simpl; [done|].
  destruct (cmp x e <? 0); [done|].
  rewrite IH. apply Permutation_swap.
Qed.

(** Sorting rearranges and nothing more. *)
Lemma sortBy_Permutation {A} (cmp : A -> A -> Z) (l : list A) :
  Permutation (sortBy cmp l) l.
Proof.
  unfold sortBy.
  enough (H : forall acc, Permutation
            (fold_left (fun acc x => insertSorted cmp x acc) l acc) (acc ++ l)).
  { apply (H []). }
  induction l as [|x l IH]; intros acc; simpl.
  - by rewrite app_nil_r.
  - rewrite IH, insertSorted_Permutation. simpl.
    apply Permutation_middle.
Qed.

Lemma sortBy_In {A} (cmp : A -> A -> Z) (l : list A) (x : A) :
  In x (sortBy cmp l) <-> In x l.
Proof.
  rewrite <- !list_elem_of_In. by rewrite sortBy_Permutation.
Qed.

Lemma filter_Permutation {A} (q : A -> bool) (l l' : list A) :
  Permutation l l' -> Permutation (List.filter q l) (List.filter q l').
Proof.
  induction 1 as [|x l l' _ IH|x y l|l l' l'' _ IH1 _ IH2]; simpl.
  - done.
  - destruct (q x); [by constructor | done].
  - destruct (q x), (q y); try done. apply Permutation_swap.
  - by etransitivity.
Qed.

(** ** Regular expressions *)

Lemma matchRe_Chr {T} (c : N) (s : jsstring) (caps : gmap nat jsstring)
    (k : jsstring -> gmap nat jsstring -> option T) :
  matchRe (Chr c) s caps k =
  if startsWith s [c] then k (drop 1 s) caps else None.
Proof.
  destruct s as [|d s]; simpl; [done|].
  destruct (N.eqb_spec d c) as [->|Hne].
  - by rewrite bool_decide_eq_true_2.
  - by rewrite bool_decide_eq_false_2.
Qed.

Lemma startsWith_app (s a b : jsstring) :
  startsWith s (a ++ b) = startsWith s a && startsWith (drop (length a) s) b.
Proof.
  revert s. induction a as [|c a IH]; intros s; simpl; [done|].
  destruct s as [|d s]; simpl; [done|].
  by rewrite IH, andb_assoc.
Qed.

(** A literal text matches when the string starts with it. *)
Lemma matchRe_Str {T} (l s : jsstring) (caps : gmap nat jsstring)
    (k : jsstring -> gmap nat jsstring -> option T) :
  matchRe (Str l) s caps k =
  if startsWith s l then k (drop (length l) s) caps else None.
Proof.
  revert s. induction l as [|c l IH]; intros s; [done|].
  change (matchRe (Str (c :: l)) s caps k)
    with (matchRe (Chr c) s caps (fun s' caps' => matchRe (Str l) s' caps' k)).
  rewrite matchRe_Chr. change (c :: l) with ([c] ++ l).
  rewrite startsWith_app. simpl length.
  destruct (startsWith s [c]); [|done]. simpl andb.
  rewrite IH, drop_drop. done.
Qed.

(** A greedy run gives nothing back when what follows cannot start with a
    character of the run. *)
Lemma greedyStar_run {T} (p : N -> bool) (s : jsstring)
    (k : jsstring -> option T) :
  (forall c t, p c = true -> k (c :: t) = None) ->
  greedyStar p s k = k (drop (runLength p s) s).
Proof.
  intros Hk. induction s as [|c s IH]; simpl; [done|].
  destruct (p c) eqn:Hc; [|done].
  rewrite IH. simpl. destruct (k (drop (runLength p s) s)); [done|].
  by apply Hk.
Qed.

Lemma matchRe_Plus_run {T} (p : N -> bool) (s : jsstring)
    (caps : gmap nat jsstring)
    (k : jsstring -> gmap nat jsstring -> option T) :
  (forall c t, p c = true -> k (c :: t) caps = None) ->
  matchRe (Plus p) s caps k =
  if (runLength p s =? 0)%nat then None
  else k (drop (runLength p s) s) caps.
Proof.
  intros Hk. destruct s as [|c s]; simpl; [done|].
  destruct (p c) eqn:Hc; [|done]. simpl.
  by rewrite (greedyStar_run p s (fun rest => k rest caps)).
Qed.

(** A lazy run of [.] before [)] stops at the first [)]. *)
Lemma lazyStar_paren {T} (s : jsstring) (f : jsstring -> T) :
  lazyStar dot s
    (fun rest =>
       match rest with
       | d :: r => if (d =? 41)%N then Some (f r) else None
       | [] => None
       end)
  = (fun n => f (drop n s)) <$> Direct.lazyDotsParen s.
Proof.
  induction s as [|c s IH]; simpl; [done|].
  destruct (c =? 41)%N; [done|]. unfold dot at 1.
  destruct (isLineTerminator c); simpl; [done|].
  rewrite IH. by destruct (Direct.lazyDotsParen s).
Qed.

Lemma length_drop_sub {A} (s : list A) (n : nat) :
  (n <= length s)%nat -> (length s - length (drop n s))%nat = n.
Proof. rewrite length_drop. lia. Qed.

(** ** Global replacement: when it leaves a string alone *)

Section ScanFacts.

Context {R : Type} (matchAt : jsstring -> option (nat * R))
  (f : R -> jsstring).

(** A match lies inside the string and its replacement is shorter. *)
Hypothesis match_shrinks : forall s len r,
  matchAt s = Some (len, r) ->
  (1 <= len <= length s)%nat /\ (length (f r) < len)%nat.

Abbreviation rendered skip s :=
  (concat (map (fun p => match p with inl c => [c] | inr r => f r end)
               (scan matchAt skip s))).

Lemma rendered_length_le (s : jsstring) :
  forall skip, (length (rendered skip s) <= length s - skip)%nat.
Proof.
  induction s as [|c s IH]; intros skip; simpl; [lia|].
  destruct skip as [|k]; [|apply IH].
  destruct (matchAt (c :: s)) as [[len r]|] eqn:Hm; simpl.
  - apply match_shrinks in Hm as [Hlen Hf]. simpl in Hlen.
    rewrite length_app. specialize (IH (Nat.pred len)). lia.
  - specialize (IH 0%nat). lia.
Qed.

Lemma rendered_length_lt (s : jsstring) :
  testAnywhere (fun t => isSome (matchAt t)) s = true ->
  (length (rendered 0%nat s) < length s)%nat.
Proof.
  induction s as [|c s IH]; simpl.
  - destruct (matchAt []) as [[len r]|] eqn:Hm; [|discriminate].
    apply match_shrinks in Hm. simpl in Hm. lia.
  - destruct (matchAt (c :: s)) as [[len r]|] eqn:Hm; simpl.
    + intros _. apply match_shrinks in Hm as [Hlen Hf]. simpl in Hlen.
      rewrite length_app.
      pose proof (rendered_length_le s (Nat.pred len)). lia.
    + intros H. apply IH in H. lia.
Qed.

Lemma rendered_no_match (s : jsstring) :
  testAnywhere (fun t => isSome (matchAt t)) s = false ->
  rendered 0%nat s = s.
Proof.
  induction s as [|c s IH]; simpl; [done|].
  destruct (matchAt (c :: s)) as [[len r]|] eqn:Hm; simpl; [discriminate|].
  intros H. by rewrite IH.
Qed.

(** A global replacement returns its input exactly when the expression
    matches nowhere in it. *)
Lemma replaceAll_fixed (s : jsstring) :
  replaceAll matchAt f s = s <->
  testAnywhere (fun t => isSome (matchAt t)) s = false.
Proof.
  unfold replaceAll. split.
  - intros Heq. apply not_true_iff_false. intros H.
    apply rendered_length_lt in H. rewrite Heq in H. lia.
  - apply rendered_no_match.
Qed.

End ScanFacts.

(** ** getSnippets *)

Import UltiSnippetsProvider.

(** *** At most one plain definition per trigger *)

Lemma TriggerKind_eqb_eq (a b : TriggerKind) :
  TriggerKind_eqb a b = true <-> a = b.
Proof. destruct a, b; simpl; split; congruence. Qed.

Lemma sameTrigger_key (snip o : Snippet) :
  sameTrigger snip o = true <-> triggerKey o = triggerKey snip.
Proof.
  unfold sameTrigger, triggerKey.
  rewrite andb_true_iff, streq_true, TriggerKind_eqb_eq.
  split; [intros [-> ->]; done | intros [= -> ->]; done].
Qed.

(** What [addSnippet] does: it appends, or it leaves the array as it is;
    a definition already stored is never replaced. *)
Lemma addSnippet_cases (result : list Snippet) (snip : Snippet) :
  addSnippet result snip =
  if isPlain snip && isSome (findIndex (sameTrigger snip) result)
  then result
  else result ++ [snip].
Proof.
  unfold addSnippet, isPlain.
  destruct (isSome (regex snip) || truthy (context snip)); [done|]. simpl.
  destruct (findIndex (sameTrigger snip) result) as [idx|]; [|done]. simpl.
  destruct (result !! idx) as [item|] eqn:Hidx; [|done].
  destruct (priority snip >? priority item); [|done].
  by apply list_insert_id.
Qed.

Abbreviation plainKeys l := (map triggerKey (List.filter isPlain l)).

Lemma addSnippet_plain_unique (result : list Snippet) (snip : Snippet) :
  NoDup (plainKeys result) -> NoDup (plainKeys (addSnippet result snip)).
Proof.
  intros Hnd. rewrite addSnippet_cases.
  destruct (isPlain snip) eqn:Hplain; simpl.
  - destruct (findIndex (sameTrigger snip) result) eqn:Hfind; [done|]. simpl.
    rewrite List.filter_app, map_app. simpl. rewrite Hplain. simpl.
    apply NoDup_app. split; [done|]. split; [|apply NoDup_singleton].
    intros key Hkey Hs. apply list_elem_of_singleton in Hs. subst key.
    apply list_elem_of_In, in_map_iff in Hkey as [o [Hk Ho]].
    apply filter_In in Ho as [Ho _].
    apply findIndex_None in Hfind. rewrite Forall_forall in Hfind.
    apply list_elem_of_In in Ho. specialize (Hfind o Ho).
    apply sameTrigger_key in Hk. congruence.
  - rewrite List.filter_app, map_app. simpl. rewrite Hplain. simpl.
    by rewrite app_nil_r.
Qed.

Lemma addFile_plain_unique (st : option Z * list Snippet)
    (file : UltiSnipsFile) :
  NoDup (plainKeys (snd st)) -> NoDup (plainKeys (snd (addFile st file))).
Proof.
  unfold addFile. simpl. generalize (snd st).
  induction (snippets file) as [|snip l IH]; intros result; simpl; [done|].
  intros H. apply IH. by apply addSnippet_plain_unique.
Qed.

Lemma filter_plain_unique (q : Snippet -> bool) (l : list Snippet) :
  NoDup (plainKeys l) -> NoDup (plainKeys (List.filter q l)).
Proof.
  induction l as [|x l IH]; simpl; [done|].
  destruct (isPlain x) eqn:Hx; simpl.
  - intros [Hnotin Hnd]%NoDup_cons. destruct (q x); simpl; [|by apply IH].
    rewrite Hx. simpl. apply NoDup_cons. split; [|by apply IH].
    intros Hin. apply Hnotin.
    apply list_elem_of_In, in_map_iff in Hin as [o [Hk Ho]].
    apply filter_In in Ho as [Ho Hp]. apply filter_In in Ho as [Ho _].
    apply list_elem_of_In, in_map_iff. exists o. split; [done|].
    apply filter_In. done.
  - intros Hnd. destruct (q x); simpl; [|by apply IH].
    rewrite Hx. by apply IH.
Qed.

(** No two definitions without regex and context returned by [getSnippets]
    share prefix and trigger kind. *)
Theorem getSnippets_plain_unique (getFiletypes : jsstring -> list jsstring)
    (snippetFiles : list UltiSnipsFile) (ft : jsstring) :
  NoDup (map triggerKey
           (List.filter isPlain (getSnippets getFiletypes snippetFiles ft))).
Proof.
  unfold getSnippets. cbv zeta.
  set (files := sortBy (compareFiles ft) _).
  assert (Hfold : forall st,
    NoDup (plainKeys (snd st)) ->
    NoDup (plainKeys (snd (fold_left addFile files st)))).
  { induction files as [|file l IH]; intros st Hst; simpl; [done|].
    apply IH. by apply addFile_plain_unique. }
  specialize (Hfold (None, []) (NoDup_nil_2 : NoDup (plainKeys []))).
  destruct (fold_left addFile files (None, [])) as [min result].
  simpl in Hfold.
  assert (Hfiltered : NoDup (plainKeys
    match min with
    | Some m => List.filter (fun o => priority o >=? m) result
    | None => result
    end)).
  { destruct min; [by apply filter_plain_unique | done]. }
  revert Hfiltered. generalize (match min with
    | Some m => List.filter (fun o => priority o >=? m) result
    | None => result end). intros l Hl.
  assert (Hperm : Permutation (plainKeys (sortBy compareContext l))
                              (plainKeys l)).
  { apply Permutation_map, filter_Permutation, sortBy_Permutation. }
  by rewrite Hperm.
Qed.

(** *** The first definition stays *)

Lemma addSnippet_fold_covers (defs : list Snippet) :
  forall o, In o defs ->
    exists o', In o' (fold_left addSnippet defs []) /\
               triggerKey o' = triggerKey o.
Proof.
  induction defs as [|x defs IH] using rev_ind; intros o Ho; [destruct Ho|].
  rewrite fold_left_app. simpl. rewrite addSnippet_cases.
  destruct (isPlain x && isSome (findIndex (sameTrigger x)
                                   (fold_left addSnippet defs []))) eqn:Hc.
  - apply in_app_or in Ho as [Ho|[<-|[]]]; [by apply IH|].
    apply andb_true_iff in Hc as [_ Hc].
    destruct (findIndex _ _) as [n|] eqn:Hfind; [|discriminate].
    apply findIndex_Some in Hfind as [o' [Hin Hk]].
    exists o'. split; [done|]. by apply sameTrigger_key.
  - apply in_app_or in Ho as [Ho|[<-|[]]].
    + destruct (IH o Ho) as [o' [Hin Hk]]. exists o'. split; [|done].
      apply in_or_app. by left.
    + exists x. split; [|done]. apply in_or_app. right. by left.
Qed.

Lemma addSnippet_fold_first (defs : list Snippet) :
  forall s, In s (fold_left addSnippet defs []) -> isPlain s = true ->
    exists before after, defs = before ++ s :: after /\
      Forall (fun o => triggerKey o <> triggerKey s) before.
Proof.
  induction defs as [|x defs IH] using rev_ind; intros s Hs Hplain;
    [destruct Hs|].
  rewrite fold_left_app in Hs. simpl in Hs. rewrite addSnippet_cases in Hs.
  assert (Hold : In s (fold_left addSnippet defs []) ->
    exists before after, (defs ++ [x]) = before ++ s :: after /\
      Forall (fun o => triggerKey o <> triggerKey s) before).
  { intros H. destruct (IH s H Hplain) as (before & after & -> & Hb).
    exists before, (after ++ [x]). split; [|done]. by rewrite <- app_assoc. }
  destruct (isPlain x && isSome (findIndex (sameTrigger x)
                                   (fold_left addSnippet defs []))) eqn:Hc;
    [by apply Hold|].
  apply in_app_or in Hs as [Hs|[<-|[]]]; [by apply Hold|].
  exists defs, []. split; [done|].
  rewrite Hplain in Hc. simpl in Hc.
  destruct (findIndex _ _) eqn:Hfind; [discriminate|].
  apply findIndex_None in Hfind. rewrite Forall_forall in Hfind.
  apply Forall_forall. intros o Ho Hk. apply list_elem_of_In in Ho.
  destruct (addSnippet_fold_covers defs o Ho) as [o' [Hin Hk']].
  apply list_elem_of_In in Hin. specialize (Hfind o' Hin).
  assert (sameTrigger x o' = true) by (apply sameTrigger_key; congruence).
  congruence.
Qed.

Lemma addFile_fold_snippets (files : list UltiSnipsFile)
    (st : option Z * list Snippet) :
  snd (fold_left addFile files st) =
  fold_left addSnippet (flat_map snippets files) (snd st).
Proof.
  revert st. induction files as [|file l IH]; intros st; simpl; [done|].
  rewrite IH. unfold addFile at 1. simpl. by rewrite fold_left_app.
Qed.

(** What [getSnippets] returns was stored by the loops. *)
Lemma getSnippets_stored (getFiletypes : jsstring -> list jsstring)
    (snippetFiles : list UltiSnipsFile) (ft : jsstring) (s : Snippet) :
  In s (getSnippets getFiletypes snippetFiles ft) ->
  In s (fold_left addSnippet
          (definitionsInOrder getFiletypes snippetFiles ft) []).
Proof.
  unfold getSnippets, definitionsInOrder. cbv zeta.
  set (files := sortBy (compareFiles ft) _).
  pose proof (addFile_fold_snippets files (None, [])) as Hfold.
  simpl in Hfold. rewrite <- Hfold. clear Hfold.
  destruct (fold_left addFile files (None, [])) as [min result]. simpl.
  intros Hs. apply sortBy_In in Hs.
  destruct min; [by apply filter_In in Hs as [Hs _] | done].
Qed.

(** A definition without regex and context that [getSnippets] returns is
    the first definition with its prefix and trigger kind that the loops
    met: no later definition takes its place, whatever its priority. *)
Theorem getSnippets_first_definition (getFiletypes : jsstring -> list jsstring)
    (snippetFiles : list UltiSnipsFile) (ft : jsstring) (s : Snippet) :
  In s (getSnippets getFiletypes snippetFiles ft) ->
  isPlain s = true ->
  exists before after,
    definitionsInOrder getFiletypes snippetFiles ft = before ++ s :: after /\
    Forall (fun o => triggerKey o <> triggerKey s) before.
Proof.
  intros Hs Hplain. apply addSnippet_fold_first; [|done].
  by apply getSnippets_stored.
Qed.

Lemma getSnippets_first_definition_witness :
  In impLow (getSnippets noExtends [fileBoth] python) /\
  isPlain impLow = true /\
  exists before after,
    definitionsInOrder noExtends [fileBoth] python = before ++ impLow :: after /\
    Forall (fun o => triggerKey o <> triggerKey impLow) before.
Proof.
  assert (Hin : In impLow (getSnippets noExtends [fileBoth] python))
    by (left; reflexivity).
  split; [exact Hin|]. split; [reflexivity|].
  exact (getSnippets_first_definition noExtends [fileBoth] python impLow
           Hin eq_refl).
Defined.

(** C1, evaluated: with python.snippets defining [imp] at priority 0 and
    all.snippets defining [imp] at priority 10, [getSnippets] for python
    returns the priority 0 definition alone, whichever file was loaded
    first; and a file that defines [imp] at priority 0 and then again at
    priority 10 yields the priority 0 definition.  The branch taken for the
    higher priority stores [item], the element already there. *)
Theorem getSnippets_keeps_lower_priority :
  getSnippets noExtends [fileA; fileB] python = [impA] /\
  getSnippets noExtends [fileB; fileA] python = [impA] /\
  getSnippets noExtends [fileBoth] python = [impLow] /\
  priority impA < priority impB /\ priority impLow < priority impHigh.
Proof. repeat split. Qed.

(** *** The combined threshold *)

(** When no threshold is 0, the loop of [getSnippets] combines the
    thresholds by maximum. *)
Theorem updateMin_maximum (clears : list (option Z)) :
  Forall (fun c => c <> Some 0) clears ->
  fold_left updateMin clears None = fold_left maxThreshold clears None.
Proof.
  intros Hnz.
  enough (H : forall acc, acc <> Some 0 ->
            fold_left updateMin clears acc = fold_left maxThreshold clears acc)
    by (by apply H).
  induction Hnz as [|c l Hc _ IH]; intros acc Hacc; simpl; [done|].
  assert (Heq : updateMin acc c = maxThreshold acc c).
  { destruct c as [c|]; [|done]. destruct acc as [m|]; [|done]. simpl.
    destruct (m =? 0) eqn:Hm; [|done]. apply Z.eqb_eq in Hm. congruence. }
  rewrite Heq. apply IH.
  destruct c as [c|]; [|done]. destruct acc as [m|]; simpl; [|done].
  intros [= Hmax]. destruct (Z.max_spec m c) as [[_ Hx]|[_ Hx]]; congruence.
Qed.

Lemma updateMin_maximum_witness :
  Forall (fun c => c <> Some 0) [Some (-50); None; Some 5] /\
  fold_left updateMin [Some (-50); None; Some 5] None = Some 5.
Proof.
  assert (Hnz : Forall (fun c : option Z => c <> Some 0)
                  [Some (-50); None; Some 5])
    by (repeat constructor; discriminate).
  split; [exact Hnz|].
  exact (updateMin_maximum [Some (-50); None; Some 5] Hnz).
Defined.

Lemma addFile_fold_min (files : list UltiSnipsFile)
    (st : option Z * list Snippet) :
  fst (fold_left addFile files st) =
  fold_left updateMin (map clearsnippets files) (fst st).
Proof.
  revert st. induction files as [|file l IH]; intros st; simpl; [done|].
  by rewrite IH.
Qed.

(** [getSnippets] returns exactly the definitions the loops stored whose
    priority is not below the threshold [min]. *)
Theorem getSnippets_threshold_filter
    (getFiletypes : jsstring -> list jsstring)
    (snippetFiles : list UltiSnipsFile) (ft : jsstring) (s : Snippet) :
  In s (getSnippets getFiletypes snippetFiles ft) <->
  In s (fold_left addSnippet
          (definitionsInOrder getFiletypes snippetFiles ft) []) /\
  (forall m, clearThreshold getFiletypes snippetFiles ft = Some m ->
             m <= priority s).
Proof.
  unfold getSnippets, definitionsInOrder, clearThreshold. cbv zeta.
  set (files := sortBy (compareFiles ft) _).
  pose proof (addFile_fold_snippets files (None, [])) as Hsnd.
  pose proof (addFile_fold_min files (None, [])) as Hfst.
  destruct (fold_left addFile files (None, [])) as [min result].
  simpl in Hsnd, Hfst. subst min result.
  rewrite sortBy_In.
  destruct (fold_left updateMin (map clearsnippets files) None) as [m|].
  - rewrite filter_In, Z.geb_le. split.
    + intros [Hs Hm]. split; [done|]. intros m' [= <-]. lia.
    + intros [Hs Hm]. split; [done|]. specialize (Hm m eq_refl). lia.
  - split; [intros Hs; split; [done | discriminate] | by intros [Hs _]].
Qed.

(** C2, evaluated: python.snippets clears at 0 and all.snippets clears at
    -1, so the thresholds combine to 0 by maximum; [getSnippets] combines
    them to -1 (a threshold of 0 is falsy in [min ? .. : ..]) and keeps [x],
    whose priority -1 is below 0. *)
Theorem getSnippets_zero_threshold_lost :
  fold_left updateMin [Some 0; Some (-1)] None = Some (-1) /\
  getSnippets noExtends [clearZero; clearMinusOne] python = [lowX] /\
  getSnippets noExtends [clearMinusOne; clearZero] python = [lowX] /\
  priority lowX < Z.max 0 (-1).
Proof. repeat split. Qed.

(** *** Definitions with a regex or a context are all kept *)

Lemma addSnippet_In (result : list Snippet) (snip s : Snippet) :
  In s result -> In s (addSnippet result snip).
Proof.
  intros Hs. rewrite addSnippet_cases.
  destruct (_ && _); [done|]. apply in_or_app. by left.
Qed.

Lemma addSnippet_fold_In (defs result : list Snippet) (s : Snippet) :
  In s result -> In s (fold_left addSnippet defs result).
Proof.
  revert result. induction defs as [|x defs IH]; intros result Hs; simpl;
    [done|].
  by apply IH, addSnippet_In.
Qed.

Lemma addSnippet_fold_special (defs result : list Snippet) (s : Snippet) :
  In s defs -> isPlain s = false -> In s (fold_left addSnippet defs result).
Proof.
  revert result. induction defs as [|x defs IH]; intros result Hs Hplain;
    [destruct Hs|].
  simpl. destruct Hs as [->|Hs]; [|by apply IH].
  apply addSnippet_fold_In. rewrite addSnippet_cases, Hplain. simpl.
  apply in_or_app. right. by left.
Qed.

(** A definition with a regex or a context is returned by [getSnippets]
    whenever its priority is not below the threshold: no other definition
    with the same prefix removes it. *)
Theorem getSnippets_special_kept (getFiletypes : jsstring -> list jsstring)
    (snippetFiles : list UltiSnipsFile) (ft : jsstring) (s : Snippet) :
  In s (definitionsInOrder getFiletypes snippetFiles ft) ->
  isPlain s = false ->
  (forall m, clearThreshold getFiletypes snippetFiles ft = Some m ->
             m <= priority s) ->
  In s (getSnippets getFiletypes snippetFiles ft).
Proof.
  unfold getSnippets, definitionsInOrder, clearThreshold. cbv zeta.
  set (files := sortBy (compareFiles ft) _).
  intros Hs Hplain Hmin.
  pose proof (addFile_fold_snippets files (None, [])) as Hsnd.
  pose proof (addFile_fold_min files (None, [])) as Hfst.
  destruct (fold_left addFile files (None, [])) as [min result].
  simpl in Hsnd, Hfst. subst min result.
  apply sortBy_In.
  pose proof (addSnippet_fold_special (flat_map snippets files) [] s Hs Hplain)
    as Hin.
  destruct (fold_left updateMin (map clearsnippets files) None) as [m|];
    [|done].
  apply filter_In. split; [done|].
  specialize (Hmin m eq_refl). apply Z.geb_le. lia.
Qed.

Lemma getSnippets_special_kept_witness :
  In fooGuarded (definitionsInOrder noExtends [fileFoo] python) /\
  isPlain fooGuarded = false /\
  clearThreshold noExtends [fileFoo] python = None /\
  In fooGuarded (getSnippets noExtends [fileFoo] python).
Proof.
  assert (Hin : In fooGuarded (definitionsInOrder noExtends [fileFoo] python))
    by (right; left; reflexivity).
  split; [exact Hin|]. split; [reflexivity|]. split; [reflexivity|].
  apply (getSnippets_special_kept noExtends [fileFoo] python fooGuarded
           Hin eq_refl).
  intros m Hm. discriminate Hm.
Defined.

(** *** Definitions with a context come first *)

Lemma insertSorted_context (front back : list Snippet) (x : Snippet) :
  Forall (fun s => truthy (context s) = true) front ->
  Forall (fun s => truthy (context s) = false) back ->
  insertSorted compareContext x (front ++ back) =
  if truthy (context x) then front ++ x :: back else front ++ back ++ [x].
Proof.
  intros Hfront Hback. induction Hfront as [|e front He _ IH]; simpl.
  - destruct (truthy (context x)) eqn:Hx.
    + destruct back as [|e back]; [done|]. simpl.
      apply Forall_cons in Hback as [He _].
      unfold compareContext. by rewrite Hx, He.
    + induction Hback as [|e back He _ IH]; simpl; [done|].
      unfold compareContext at 1. rewrite Hx, He. simpl. by rewrite IH.
  - unfold compareContext at 1. rewrite He.
    destruct (truthy (context x)) eqn:Hx; simpl; by rewrite IH.
Qed.

(** Sorting by [compareContext] puts the definitions with a context in
    front and keeps the order within both groups. *)
Lemma sortBy_context (l : list Snippet) :
  sortBy compareContext l =
  List.filter (fun s => truthy (context s)) l ++
  List.filter (fun s => negb (truthy (context s))) l.
Proof.
  unfold sortBy.
  enough (H : forall front back,
    Forall (fun s => truthy (context s) = true) front ->
    Forall (fun s => truthy (context s) = false) back ->
    fold_left (fun acc x => insertSorted compareContext x acc) l
      (front ++ back) =
    (front ++ List.filter (fun s => truthy (context s)) l) ++
    (back ++ List.filter (fun s => negb (truthy (context s))) l)).
  { apply (H [] []); constructor. }
  induction l as [|x l IH]; intros front back Hfront Hback; simpl.
  - by rewrite !app_nil_r.
  - rewrite insertSorted_context by done.
    destruct (truthy (context x)) eqn:Hx; simpl.
    + replace (front ++ x :: back) with ((front ++ [x]) ++ back)
        by (by rewrite <- app_assoc).
      rewrite IH; [by rewrite <- !app_assoc| |done].
      apply Forall_app. split; [done|]. by constructor.
    + rewrite IH; [by rewrite <- !app_assoc|done|].
      apply Forall_app. split; [done|]. by constructor.
Qed.

(** [getSnippets] returns the definitions with a context in front of
    those without. *)
Theorem getSnippets_context_first (getFiletypes : jsstring -> list jsstring)
    (snippetFiles : list UltiSnipsFile) (ft : jsstring) :
  exists guarded others,
    getSnippets getFiletypes snippetFiles ft = guarded ++ others /\
    Forall (fun s => truthy (context s) = true) guarded /\
    Forall (fun s => truthy (context s) = false) others.
Proof.
  unfold getSnippets. cbv zeta.
  destruct (fold_left addFile _ (None, [])) as [min result].
  rewrite sortBy_context.
  eexists _, _. split; [reflexivity|]. split.
  - apply Forall_forall. intros s Hs.
    by apply list_elem_of_In, filter_In in Hs as [_ Hs].
  - apply Forall_forall. intros s Hs.
    apply list_elem_of_In, filter_In in Hs as [_ Hs].
    by apply negb_true_iff.
Qed.

(** ** getTriggerSnippets *)

(** *** Nothing is being typed *)

(** With no text before the cursor, or with a space right before it,
    [getTriggerSnippets] returns no edit and consults no evaluator. *)
Theorem getTriggerSnippets_no_token
    (getFiletypes : jsstring -> list jsstring) (W : Type)
    (checkContext : jsstring -> W -> bool * W)
    (resolveSnippetBody : Snippet -> Range -> jsstring -> W -> jsstring * W)
    (snippetFiles : list UltiSnipsFile) (doc : Document) (position : Position)
    (auto : bool) (w : W) :
  slice0 (getline doc (line position)) (character position) = [] \/
  last (slice0 (getline doc (line position)) (character position))
    = Some 32%N ->
  getTriggerSnippets getFiletypes W checkContext resolveSnippetBody
    snippetFiles doc position auto w = ([], w).
Proof.
  intros H. unfold getTriggerSnippets. cbv zeta.
  destruct H as [-> | ->]; [done|].
  rewrite bool_decide_eq_true_2 by done. by rewrite orb_true_r.
Qed.

Lemma getTriggerSnippets_no_token_witness :
  last (slice0 (getline (buffer "foo ") (line (cursor 4)))
          (character (cursor 4))) = Some 32%N /\
  getTriggerSnippets noExtends unit alwaysTrue bodyAsIs [fileFoo]
    (buffer "foo ") (cursor 4) false tt = ([], tt).
Proof.
  split; [reflexivity|].
  apply getTriggerSnippets_no_token. right. reflexivity.
Defined.

(** *** The boundary rules *)



(** *** The autoTrigger gate *)

Section TriggerFacts.

Context (getFiletypes : jsstring -> list jsstring) {W : Type}
  (checkContext : jsstring -> W -> bool * W)
  (resolveSnippetBody : Snippet -> Range -> jsstring -> W -> jsstring * W).

(** An edit carries the prefix, file, priority and description of the
    snippet it was made from. *)
Lemma makeEdit_fields (ln : jsstring) (position : Position) (s : Snippet)
    (w : W) :
  let e := fst (makeEdit W resolveSnippetBody ln position s w) in
  edit_prefix e = prefix s /\ edit_location e = filepath s /\
  edit_priority e = priority s /\ edit_description e = description s.
Proof.
  unfold makeEdit. cbv zeta.
  destruct (resolveSnippetBody s _ ln w) as [newText w']. simpl. auto.
Qed.

Lemma editStep_edits (ln : jsstring) (position : Position)
    (st : list SnippetEdit * list jsstring * W) (s : Snippet) (e : SnippetEdit) :
  In e (fst (fst (editStep W checkContext resolveSnippetBody ln position st s))) ->
  In e (fst (fst st)) \/
  (edit_prefix e = prefix s /\ edit_location e = filepath s /\
   edit_priority e = priority s /\ edit_description e = description s).
Proof.
  destruct st as [[edits contextPrefixes] w]. unfold editStep.
  destruct (truthy (context s)).
  - destruct (checkContext _ w) as [valid w1].
    destruct valid; simpl; [|by left].
    pose proof (makeEdit_fields ln position s w1) as Hf. cbv zeta in Hf.
    destruct (makeEdit W resolveSnippetBody ln position s w1) as [e' w2].
    simpl in *. intros [He|[<-|[]]]%in_app_or; [by left | by right].
  - destruct (arrayIncludes contextPrefixes (prefix s)); [by left|].
    pose proof (makeEdit_fields ln position s w) as Hf. cbv zeta in Hf.
    destruct (makeEdit W resolveSnippetBody ln position s w) as [e' w2].
    simpl in *. intros [He|[<-|[]]]%in_app_or; [by left | by right].
Qed.

Lemma editStep_fold_edits (ln : jsstring) (position : Position)
    (l : list Snippet) (st : list SnippetEdit * list jsstring * W)
    (e : SnippetEdit) :
  In e (fst (fst (fold_left
    (editStep W checkContext resolveSnippetBody ln position) l st))) ->
  In e (fst (fst st)) \/
  exists s, In s l /\
    edit_prefix e = prefix s /\ edit_location e = filepath s /\
    edit_priority e = priority s /\ edit_description e = description s.
Proof.
  revert st. induction l as [|s l IH]; intros st; simpl; [by left|].
  intros He. apply IH in He as [He|(s' & Hs' & Hf)].
  - apply editStep_edits in He as [He|Hf]; [by left|].
    right. exists s. split; [by left | done].
  - right. exists s'. split; [by right | done].
Qed.

(** Every edit returned comes from a snippet of [getSnippets] that passed
    the filter on the text before the cursor. *)
Lemma getTriggerSnippets_from_filter (snippetFiles : list UltiSnipsFile)
    (doc : Document) (position : Position) (auto : bool) (w : W)
    (e : SnippetEdit) :
  In e (fst (getTriggerSnippets getFiletypes W checkContext resolveSnippetBody
               snippetFiles doc position auto w)) ->
  exists s,
    In s (getSnippets getFiletypes snippetFiles (doc_filetype doc)) /\
    triggerFilter doc
      (slice0 (getline doc (line position)) (character position)) auto s = true /\
    edit_prefix e = prefix s /\ edit_location e = filepath s /\
    edit_priority e = priority s /\ edit_description e = description s.
Proof.
  unfold getTriggerSnippets. cbv zeta.
  set (ln := slice0 (getline doc (line position)) (character position)).
  destruct ((length ln =? 0)%nat || bool_decide (last ln = Some 32%N));
    [intros []|].
  destruct (fold_left _ _ _) as [[edits cp] w'] eqn:Hfold. simpl.
  intros He.
  assert (He' : In e (fst (fst (fold_left
    (editStep W checkContext resolveSnippetBody ln position)
    (sortBy compareContext
       (List.filter (triggerFilter doc ln auto)
          (getSnippets getFiletypes snippetFiles (doc_filetype doc))))
    ([], [], w))))) by (rewrite Hfold; exact He).
  apply editStep_fold_edits in He' as [[]|(s & Hs & Hf)].
  apply sortBy_In, filter_In in Hs as [Hs Hpass].
  exists s. auto.
Qed.






End TriggerFacts.

(** C4, as the code has it: when the caller asks for automatic matching,
    every edit returned comes from a snippet whose autoTrigger flag is set,
    the filter being the manual filter restricted to such snippets; when
    the caller does not ask for it, the flag plays no part in the filter. *)
Theorem getTriggerSnippets_autoTrigger_gate
    (getFiletypes : jsstring -> list jsstring) (W : Type)
    (checkContext : jsstring -> W -> bool * W)
    (resolveSnippetBody : Snippet -> Range -> jsstring -> W -> jsstring * W)
    (snippetFiles : list UltiSnipsFile) (doc : Document) (position : Position)
    (w : W) :
  (forall e,
     In e (fst (getTriggerSnippets getFiletypes W checkContext
                  resolveSnippetBody snippetFiles doc position true w)) ->
     exists s,
       In s (getSnippets getFiletypes snippetFiles (doc_filetype doc)) /\
       autoTrigger s = true /\
       edit_prefix e = prefix s /\ edit_location e = filepath s) /\
  (forall ln s, triggerFilter doc ln true s =
                autoTrigger s && triggerFilter doc ln false s) /\
  (forall ln s b, triggerFilter doc ln false (setAutoTrigger b s) =
                  triggerFilter doc ln false s).
Proof.
  assert (Hgate : forall ln s, triggerFilter doc ln true s =
                               autoTrigger s && triggerFilter doc ln false s).
  { intros ln s. unfold triggerFilter. simpl. by destruct (autoTrigger s). }
  split; [|split; [exact Hgate | reflexivity]].
  intros e He.
  apply getTriggerSnippets_from_filter in He
    as (s & Hs & Hpass & Hprefix & Hloc & _).
  exists s. rewrite Hgate in Hpass. apply andb_true_iff in Hpass as [Ha _].
  auto.
Qed.

(** An automatic lookup on the line [foo] returns the expansion of the
    autoTrigger snippet, and the theorem finds that snippet in the scope. *)
Lemma getTriggerSnippets_autoTrigger_gate_witness :
  let e := {| edit_range :=
                {| range_start := cursor 0; range_end := cursor 3 |};
              edit_newText := js "auto"; edit_prefix := js "foo";
              edit_location := js "/snips/python.snippets";
              edit_description := []; edit_priority := 0 |} in
  In e (fst (getTriggerSnippets noExtends unit alwaysTrue bodyAsIs
               [fileAuto] (buffer "foo") (cursor 3) true tt)) /\
  exists s,
    In s (getSnippets noExtends [fileAuto] python) /\
    autoTrigger s = true /\
    edit_prefix e = prefix s /\ edit_location e = filepath s.
Proof.
  cbv zeta.
  assert (Hin : In
    {| edit_range := {| range_start := cursor 0; range_end := cursor 3 |};
       edit_newText := js "auto"; edit_prefix := js "foo";
       edit_location := js "/snips/python.snippets";
       edit_description := []; edit_priority := 0 |}
    (fst (getTriggerSnippets noExtends unit alwaysTrue bodyAsIs
            [fileAuto] (buffer "foo") (cursor 3) true tt)))
    by (left; reflexivity).
  split; [exact Hin|].
  exact (proj1 (getTriggerSnippets_autoTrigger_gate noExtends unit alwaysTrue
                  bodyAsIs [fileAuto] (buffer "foo") (cursor 3) tt) _ Hin).
Defined.

(** C4 as the specification states it fails: a manual lookup (no automatic
    matching requested) on the line [foo] returns the expansion of an
    autoTrigger snippet. *)
Lemma autoTrigger_matches_manually :
  autoTrigger fooAuto = true /\
  triggerFilter (buffer "foo") (js "foo") false fooAuto = true /\
  map edit_newText
    (fst (getTriggerSnippets noExtends unit alwaysTrue bodyAsIs [fileAuto]
            (buffer "foo") (cursor 3) false tt)) = [js "auto"].
Proof. repeat split. Qed.

(** *** The boundary rules in getTriggerSnippets *)





(** *** Context and plain variants *)

(** C3, evaluated: [foo] is defined plain and with a context that holds;
    on the line [foo] both expansions are returned.  The accepted context
    expression, not the prefix, is what [contextPrefixes] receives. *)
Theorem getTriggerSnippets_plain_not_shadowed :
  map (fun e => (edit_prefix e, edit_newText e))
      (fst (getTriggerSnippets noExtends unit alwaysTrue bodyAsIs [fileFoo]
              (buffer "foo") (cursor 3) false tt))
  = [(js "foo", js "guarded"); (js "foo", js "plain")].
Proof. reflexivity. Qed.

(** ** resolveSnippetBody: the placeholder values *)

Section PlaceholderFacts.

Context {W : Type} (execute : jsstring -> W -> jsstring * W).

Abbreviation recordDefault := (UltiSnippetsProvider.recordDefault W execute).

(** No value the first loop records is the marker of the second loop. *)
Abbreviation rawValues values :=
  (forall (idx : N) (v : jsstring), values !! idx = Some v -> v <> js "''").

Lemma recordDefault_raw (values : gmap N jsstring) (w : W)
    (r : jsstring * option jsstring) :
  rawValues values -> rawValues (fst (recordDefault (values, w) r)).
Proof.
  intros Hraw. unfold UltiSnippetsProvider.recordDefault.
  destruct (_ || _); [|done].
  destruct (if isCodeBlock _ then _ else _) as [val w'].
  simpl. intros idx v. rewrite lookup_insert.
  case_decide; [|apply Hraw]. intros [= <-]. discriminate.
Qed.

Lemma recordDefault_keeps (values : gmap N jsstring) (w : W)
    (r : jsstring * option jsstring) (idx : N) (v : jsstring) :
  values !! idx = Some v -> v <> js "''" ->
  fst (recordDefault (values, w) r) !! idx = Some v.
Proof.
  intros Hv Hne. unfold UltiSnippetsProvider.recordDefault.
  destruct (decide (parseInt (fst r) = idx)) as [->|Hidx].
  - rewrite Hv. simpl.
    rewrite (bool_decide_eq_false_2 (Some v = Some (js "''")))
      by congruence.
    rewrite andb_false_r. done.
  - destruct (_ || _); [|done].
    destruct (if isCodeBlock _ then _ else _) as [val w'].
    simpl. by rewrite lookup_insert_ne.
Qed.

Lemma recordDefault_fold_keeps (rs : list (jsstring * option jsstring))
    (values : gmap N jsstring) (w : W) (idx : N) (v : jsstring) :
  rawValues values -> values !! idx = Some v ->
  fst (fold_left recordDefault rs (values, w)) !! idx = Some v.
Proof.
  revert values w. induction rs as [|r rs IH]; intros values w Hraw Hv;
    cbn [fold_left]; [done|].
  pose proof (recordDefault_raw values w r Hraw) as Hraw'.
  pose proof (recordDefault_keeps values w r idx v Hv (Hraw idx v Hv)) as Hv'.
  destruct (recordDefault (values, w) r) as [values' w'].
  by apply IH.
Qed.

Lemma recordDefault_fold_raw (rs : list (jsstring * option jsstring))
    (values : gmap N jsstring) (w : W) :
  rawValues values -> rawValues (fst (fold_left recordDefault rs (values, w))).
Proof.
  revert values w. induction rs as [|r rs IH]; intros values w Hraw;
    cbn [fold_left]; [done|].
  pose proof (recordDefault_raw values w r Hraw) as Hraw'.
  destruct (recordDefault (values, w) r) as [values' w'].
  by apply IH.
Qed.

Lemma recordTabstop_fold_keeps (rs : list jsstring)
    (values : gmap N jsstring) (idx : N) (v : jsstring) :
  values !! idx = Some v ->
  fold_left UltiSnippetsProvider.recordTabstop rs values !! idx = Some v.
Proof.
  revert values. induction rs as [|r rs IH]; intros values Hv; simpl; [done|].
  apply IH. unfold UltiSnippetsProvider.recordTabstop.
  destruct (values !! parseInt r) eqn:Hr; simpl; [done|].
  rewrite lookup_insert_ne; [done|]. congruence.
Qed.

(** Once the first loop has recorded a value for an index, that value is
    the final one: neither a later occurrence with a default nor the loop
    over the bare tabstops replaces it. *)
Lemma recordDefault_other (values : gmap N jsstring) (w : W)
    (r : jsstring * option jsstring) (idx : N) :
  parseInt (fst r) <> idx ->
  fst (recordDefault (values, w) r) !! idx = values !! idx.
Proof.
  intros Hidx. unfold UltiSnippetsProvider.recordDefault.
  destruct (_ || _); [|done].
  destruct (if isCodeBlock _ then _ else _) as [val w'].
  simpl. by rewrite lookup_insert_ne.
Qed.

Lemma recordDefault_fold_other (rs : list (jsstring * option jsstring))
    (values : gmap N jsstring) (w : W) (idx : N) :
  Forall (fun r' => parseInt (fst r') <> idx) rs ->
  fst (fold_left recordDefault rs (values, w)) !! idx = values !! idx.
Proof.
  intros Hrs. revert values w.
  induction Hrs as [|r rs Hr _ IH]; intros values w; cbn [fold_left]; [done|].
  pose proof (recordDefault_other values w r idx Hr) as Ho.
  destruct (recordDefault (values, w) r) as [values' w'].
  rewrite IH. exact Ho.
Qed.

(** The value of an index is settled at its first occurrence in the body:
    neither a later occurrence with a default nor the loop over the bare
    tabstops replaces what was recorded there. *)
Theorem placeholderValues_first_occurrence (bdy : jsstring) (w : W)
    (before after : list (jsstring * option jsstring))
    (r : jsstring * option jsstring) :
  execAll UltiSnippetsProvider.placeholderExec bdy = before ++ r :: after ->
  Forall (fun r' => parseInt (fst r') <> parseInt (fst r)) before ->
  exists val,
    fst (UltiSnippetsProvider.placeholderValues W execute bdy w)
      !! parseInt (fst r) = Some (js "r'" ++ escapeValue val ++ js "'") /\
    (isCodeBlock (default [] (snd r)) = false -> val = default [] (snd r)).
Proof.
  intros Hexec Hbefore. unfold UltiSnippetsProvider.placeholderValues.
  rewrite Hexec, fold_left_app. cbn [fold_left].
  assert (Hraw0 : rawValues (fst (fold_left recordDefault before (∅, w)))).
  { apply recordDefault_fold_raw. intros idx v. by rewrite lookup_empty. }
  pose proof (recordDefault_fold_other before ∅ w _ Hbefore) as Hnone.
  rewrite lookup_empty in Hnone.
  destruct (fold_left recordDefault before (∅, w)) as [values0 w0].
  cbn [fst] in Hraw0, Hnone.
  pose proof (recordDefault_raw values0 w0 r Hraw0) as Hraw1.
  assert (Hstep : exists val w',
    recordDefault (values0, w0) r =
      (<[parseInt (fst r) := js "r'" ++ escapeValue val ++ js "'"]> values0, w')
    /\ (isCodeBlock (default [] (snd r)) = false -> val = default [] (snd r))).
  { unfold UltiSnippetsProvider.recordDefault. rewrite Hnone.
    cbn [isSome negb orb].
    destruct (isCodeBlock (default [] (snd r))).
    - match goal with
      | |- context [startsWith ?code (js "!p")] =>
          destruct (startsWith code (js "!p"));
          [|destruct (execute code w0) as [val w'] eqn:He]
      end.
      + exists [], w0. split; [done | discriminate].
      + exists val, w'. split; [done | discriminate].
    - exists (default [] (snd r)), w0. split; done. }
  destruct Hstep as (val & w' & Hstep & Hval). exists val.
  rewrite Hstep in Hraw1 |- *. cbn [fst] in Hraw1.
  split; [|exact Hval].
  pose proof (recordDefault_fold_keeps after
    (<[parseInt (fst r) := js "r'" ++ escapeValue val ++ js "'"]> values0) w'
    (parseInt (fst r)) (js "r'" ++ escapeValue val ++ js "'") Hraw1
    (lookup_insert_eq _ _ _)) as Hkeep.
  destruct (fold_left recordDefault after _) as [values2 w2].
  cbn [fst] in Hkeep |- *. by apply recordTabstop_fold_keeps.
Qed.

End PlaceholderFacts.

Lemma placeholderValues_first_occurrence_witness :
  execAll UltiSnippetsProvider.placeholderExec
    (js "${1} ${1:foo} `!p snip.rv = t[1]`")
  = [] ++ (js "1", None) :: [(js "1", Some (js "foo"))] /\
  exists val,
    fst (UltiSnippetsProvider.placeholderValues unit noExecute
           (js "${1} ${1:foo} `!p snip.rv = t[1]`") tt) !! 1%N
    = Some (js "r'" ++ escapeValue val ++ js "'") /\
    (isCodeBlock [] = false -> val = []).
Proof.
  split; [reflexivity|].
  exact (placeholderValues_first_occurrence noExecute
           (js "${1} ${1:foo} `!p snip.rv = t[1]`") tt
           [] [(js "1", Some (js "foo"))] (js "1", None)
           eq_refl (Forall_nil_2 _)).
Defined.

(** C9, evaluated: index 1 occurs first without a default and then with
    the default [foo]; the value recorded for it stays the empty raw string.
    An empty default is recorded as [r''], while the override looks for
    [''], which only the later loop over bare tabstops writes. *)
Theorem placeholderValues_empty_default_kept :
  fst (placeholderValues unit noExecute
         (js "${1} ${1:foo} `!p snip.rv = t[1]`") tt) !! 1%N
  = Some (js "r''").
Proof. reflexivity. Qed.

(** ** convertRegex *)

(** C6, evaluated: a conditional group passes validation and comes back
    unchanged; [conditionRe] asks for the text [(?(?:] and so only fires on
    patterns such as the second one. *)
Theorem convertRegex_accepts_conditional :
  Util.convertRegex (js "(?(1)a|b)") = Return (js "(?(1)a|b)") /\
  Util.convertRegex (js "(?(?:n)a|b)") = Throw (js "condition pattern not supported").
Proof. split; reflexivity. Qed.

(** C7, evaluated: [^]] at the start of a character class is not
    escaped; the alternative that was meant to find it matches the text
    [/^]/] instead, which is deleted. *)
Theorem convertRegex_leaves_bracket :
  Util.convertRegex (js "[^]]") = Return (js "[^]]") /\
  Util.convertRegex (js "a/^]/b") = Return (js "ab").
Proof. split; reflexivity. Qed.

(** *** The alternatives of [regex] *)

Lemma matchRe_lazy_paren {T} (t : jsstring) (caps : gmap nat jsstring)
    (f : jsstring -> gmap nat jsstring -> T) :
  matchRe (Cat (LazyStar dot) (Chr 41)) t caps
    (fun rest caps' => Some (f rest caps'))
  = (fun n => f (drop n t) caps) <$> Direct.lazyDotsParen t.
Proof. exact (lazyStar_paren t (fun r => f r caps)). Qed.

Lemma lazyDotsParen_bound (s : jsstring) (k : nat) :
  Direct.lazyDotsParen s = Some k -> (1 <= k <= length s)%nat.
Proof.
  revert k. induction s as [|c s IH]; intros k; simpl; [discriminate|].
  destruct (c =? 41)%N; [intros [= <-]; lia|].
  destruct (isLineTerminator c); [discriminate|].
  destruct (Direct.lazyDotsParen s) as [j|]; simpl; [|discriminate].
  intros [= <-]. specialize (IH j eq_refl). lia.
Qed.

Lemma runLength_le (p : N -> bool) (s : jsstring) :
  (runLength p s <= length s)%nat.
Proof.
  induction s as [|c s IH]; simpl; [lia|]. destruct (p c); simpl; lia.
Qed.

Lemma startsWith_take (s p : jsstring) (n : nat) :
  startsWith s p = true -> (length p <= n)%nat ->
  startsWith (take n s) p = true.
Proof.
  intros [t ->]%startsWith_spec Hn. apply startsWith_spec.
  exists (take (n - length p) t). by rewrite take_app_ge.
Qed.

Lemma startsWith_length (s p : jsstring) :
  startsWith s p = true -> (length p <= length s)%nat.
Proof. intros [t ->]%startsWith_spec. rewrite length_app. lia. Qed.

Lemma execAt_Or (a b : Re) (s : jsstring) :
  execAt (Or a b) s =
  match execAt a s with
  | Some x => Some x
  | None => execAt b s
  end.
Proof. reflexivity. Qed.

Lemma execAt_text (l s : jsstring) :
  execAt (Str l) s = if startsWith s l then Some (length l, ∅) else None.
Proof.
  unfold execAt. rewrite matchRe_Str.
  destruct (startsWith s l) eqn:Hs; [|done].
  by rewrite length_drop_sub by (by apply startsWith_length).
Qed.

Lemma execAt_bellRe (s : jsstring) :
  execAt Util.bellRe s = (fun n => (n, ∅)) <$> Direct.bellRe s.
Proof.
  unfold Util.bellRe, Direct.bellRe. rewrite execAt_text.
  by destruct (startsWith s (js "\a")).
Qed.

Lemma execAt_stringStartRe (s : jsstring) :
  execAt Util.stringStartRe s = (fun n => (n, ∅)) <$> Direct.stringStartRe s.
Proof.
  unfold Util.stringStartRe, Direct.stringStartRe. rewrite execAt_text.
  by destruct (startsWith s (js "\A")).
Qed.

Lemma execAt_braceRe (s : jsstring) :
  execAt (Util.interpolated Util.braceRe) s =
  (fun n => (n, ∅)) <$> Direct.braceReText s.
Proof.
  unfold Direct.braceReText.
  assert (Hsplit : startsWith s (js "/^]/") =
    startsWith s [47%N] &&
    (startsWith (drop 1 s) (js "^]") && startsWith (drop 3 s) [47%N])).
  { change (js "/^]/") with ([47%N] ++ (js "^]" ++ [47%N])).
    rewrite !startsWith_app, drop_drop. reflexivity. }
  rewrite Hsplit. clear Hsplit.
  unfold execAt, Util.interpolated, Util.braceRe.
  change (matchRe (Cat (Chr 47) (Cat (Str (js "^]")) (Chr 47))) s ∅ ?k)
    with (matchRe (Chr 47) s ∅
            (fun s1 c1 => matchRe (Str (js "^]")) s1 c1
               (fun s2 c2 => matchRe (Chr 47) s2 c2 k))).
  rewrite matchRe_Chr.
  destruct (startsWith s [47%N]); [|done]. rewrite andb_true_l.
  rewrite matchRe_Str, drop_drop.
  destruct (startsWith (drop 1 s) (js "^]")); [|done]. rewrite andb_true_l.
  change (1 + length (js "^]"))%nat with 3%nat.
  rewrite matchRe_Chr, drop_drop.
  destruct (startsWith (drop 3 s) [47%N]) eqn:H3; [|done].
  apply startsWith_length in H3. rewrite length_drop in H3.
  change (length [47%N]) with 1%nat in H3.
  rewrite length_drop_sub by lia. done.
Qed.

Lemma execAt_commentRe (s : jsstring) :
  execAt Util.commentRe s = (fun n => (n, ∅)) <$> Direct.commentRe s.
Proof.
  unfold execAt, Util.commentRe, Direct.commentRe.
  change (matchRe (Cat (Str (js "(?#")) ?r) s ∅ ?k)
    with (matchRe (Str (js "(?#")) s ∅ (fun s1 c1 => matchRe r s1 c1 k)).
  rewrite matchRe_Str.
  destruct (startsWith s (js "(?#")) eqn:Hs; [|done].
  rewrite (matchRe_lazy_paren _ _ (fun rest caps => (length s - length rest, caps)%nat)).
  destruct (Direct.lazyDotsParen _) as [k|] eqn:Hk; [|done]. simpl.
  apply lazyDotsParen_bound in Hk. rewrite length_drop in Hk.
  change (length (js "(?#")) with 3%nat in Hk.
  rewrite drop_drop, length_drop_sub by lia. done.
Qed.

Lemma isWordChar_not (c d : N) :
  isWordChar d = false -> isWordChar c = true -> (c =? d)%N = false.
Proof.
  intros Hd Hc. destruct (N.eqb_spec c d) as [->|]; [congruence | done].
Qed.

Lemma execAt_namedCaptureRe (s : jsstring) :
  execAt Util.namedCaptureRe s =
  (fun n => (n, ∅)) <$> Direct.namedCaptureRe s.
Proof.
  unfold execAt, Util.namedCaptureRe, Direct.namedCaptureRe.
  change (matchRe (Cat (Str (js "(?P<")) ?r) s ∅ ?k)
    with (matchRe (Str (js "(?P<")) s ∅ (fun s1 c1 => matchRe r s1 c1 k)).
  rewrite matchRe_Str.
  destruct (startsWith s (js "(?P<")) eqn:Hs; [|done]. cbv zeta.
  change (length (js "(?P<")) with 4%nat.
  change (matchRe (Cat (Plus isWordChar) ?r) ?t ∅ ?k)
    with (matchRe (Plus isWordChar) t ∅ (fun s1 c1 => matchRe r s1 c1 k)).
  rewrite matchRe_Plus_run.
  2:{ intros c t Hc. simpl. by rewrite (isWordChar_not c 62). }
  set (r := drop 4 s).
  destruct (runLength isWordChar r =? 0)%nat eqn:Hn; [done|].
  pose proof (runLength_le isWordChar r) as Hle.
  destruct (drop (runLength isWordChar r) r) as [|c t] eqn:Hrest; [done|].
  change (matchRe (Cat (Chr 62) ?x) (c :: t) ∅ ?k)
    with (if (c =? 62)%N then matchRe x t ∅ k else None).
  destruct (c =? 62)%N; [|done].
  rewrite (matchRe_lazy_paren _ _ (fun rest caps => (length s - length rest, caps)%nat)).
  destruct (Direct.lazyDotsParen t) as [k|] eqn:Hk; [|done]. simpl.
  apply lazyDotsParen_bound in Hk.
  apply (f_equal length) in Hrest. subst r.
  rewrite !length_drop in Hrest. simpl in Hrest.
  rewrite length_drop. do 2 f_equal. lia.
Qed.

Lemma execAt_namedReferenceRe (s : jsstring) :
  execAt Util.namedReferenceRe s =
  (fun m => (fst m, {[ 1%nat := snd m ]})) <$> Direct.namedReferenceRe s.
Proof.
  unfold execAt, Util.namedReferenceRe, Direct.namedReferenceRe.
  change (matchRe (Cat (Str (js "(?P=")) ?r) s ∅ ?k)
    with (matchRe (Str (js "(?P=")) s ∅ (fun s1 c1 => matchRe r s1 c1 k)).
  rewrite matchRe_Str.
  destruct (startsWith s (js "(?P=")) eqn:Hs; [|done]. cbv zeta.
  change (length (js "(?P=")) with 4%nat.
  set (r := drop 4 s).
  change (matchRe (Cat (Group 1 (Plus isWordChar)) (Chr 41)) r ∅ ?k)
    with (matchRe (Plus isWordChar) r ∅
            (fun s1 c1 => matchRe (Chr 41) s1
               (<[1%nat := take (length r - length s1) r]> c1) k)).
  rewrite matchRe_Plus_run.
  2:{ intros c t Hc. simpl. by rewrite (isWordChar_not c 41). }
  destruct (runLength isWordChar r =? 0)%nat eqn:Hn; [done|].
  pose proof (runLength_le isWordChar r) as Hle.
  rewrite length_drop_sub by done.
  destruct (drop (runLength isWordChar r) r) as [|c t] eqn:Hrest; [done|].
  simpl. destruct (c =? 41)%N; [|done]. simpl.
  apply (f_equal length) in Hrest. subst r.
  rewrite !length_drop in Hrest. simpl in Hrest.
  do 2 f_equal. lia.
Qed.

(** The matcher on [Util.regex] computes what the direct functions
    compute. *)
Lemma regexExec_direct (s : jsstring) :
  Util.regexExec s = Direct.regexExec s.
Proof.
  unfold Util.regexExec, Direct.regexExec, Util.regex.
  rewrite !execAt_Or, execAt_bellRe, execAt_commentRe, execAt_stringStartRe,
    execAt_namedCaptureRe, execAt_namedReferenceRe, execAt_braceRe.
  destruct (Direct.bellRe s); [done|].
  destruct (Direct.commentRe s); [done|].
  destruct (Direct.stringStartRe s); [done|].
  destruct (Direct.namedCaptureRe s); [done|].
  destruct (Direct.namedReferenceRe s) as [[n g]|]; [done|].
  by destruct (Direct.braceReText s).
Qed.

(** *** A second translation *)

Ltac not_literal H :=
  match goal with
  | |- context [streq ?mt ?lit] =>
      let E := fresh "E" in
      destruct (streq mt lit) eqn:E;
      [apply streq_true in E; rewrite E in H; discriminate H | clear E]
  end.

Lemma replacer_comment (mt : jsstring) (p1 : option jsstring) :
  startsWith mt (js "(?#") = true -> Util.replacer (mt, p1) = [].
Proof.
  intros H. unfold Util.replacer. do 2 not_literal H. by rewrite H.
Qed.

Lemma replacer_namedCapture (mt : jsstring) (p1 : option jsstring) :
  startsWith mt (js "(?P<") = true ->
  Util.replacer (mt, p1) = js "(?" ++ drop 3 mt.
Proof.
  intros H. unfold Util.replacer. do 2 not_literal H.
  destruct (startsWith mt (js "(?#")) eqn:E.
  { apply startsWith_spec in E as [t ->]. discriminate H. }
  not_literal H. by rewrite H.
Qed.

Lemma replacer_namedReference (mt g : jsstring) :
  startsWith mt (js "(?P=") = true ->
  Util.replacer (mt, Some g) = js "\k<" ++ g ++ js ">".
Proof.
  intros H. unfold Util.replacer. do 2 not_literal H.
  destruct (startsWith mt (js "(?#")) eqn:E.
  { apply startsWith_spec in E as [t ->]. discriminate H. }
  not_literal H.
  destruct (startsWith mt (js "(?P<")) eqn:E'.
  { apply startsWith_spec in E' as [t ->]. discriminate H. }
  by rewrite H.
Qed.

(** Every match of [regex] lies inside the string and is replaced by
    something shorter. *)
Lemma regex_match_shrinks (s : jsstring) (len : nat)
    (m : jsstring * option jsstring) :
  Util.regexExec s = Some (len, m) ->
  (1 <= len <= length s)%nat /\ (length (Util.replacer m) < len)%nat.
Proof.
  rewrite regexExec_direct. unfold Direct.regexExec.
  destruct (Direct.bellRe s) as [n|] eqn:Hbell.
  { unfold Direct.bellRe in Hbell.
    destruct (startsWith s (js "\a")) eqn:Hs; [|discriminate].
    injection Hbell as <-. intros [= <- <-].
    apply startsWith_spec in Hs as [t ->]. simpl. split; [lia|].
    change (Util.replacer ([92; 97]%N, None)) with (@nil N). simpl. lia. }
  destruct (Direct.commentRe s) as [n|] eqn:Hcomment.
  { unfold Direct.commentRe in Hcomment.
    destruct (startsWith s (js "(?#")) eqn:Hs; [|discriminate].
    destruct (Direct.lazyDotsParen (drop 3 s)) as [k|] eqn:Hk; [|discriminate].
    injection Hcomment as <-. intros [= <- <-].
    apply lazyDotsParen_bound in Hk. rewrite length_drop in Hk.
    rewrite replacer_comment by (apply startsWith_take; [done | simpl; lia]).
    simpl. lia. }
  destruct (Direct.stringStartRe s) as [n|] eqn:Hstart.
  { unfold Direct.stringStartRe in Hstart.
    destruct (startsWith s (js "\A")) eqn:Hs; [|discriminate].
    injection Hstart as <-. intros [= <- <-].
    apply startsWith_spec in Hs as [t ->]. simpl. split; [lia|].
    change (Util.replacer ([92; 65]%N, None)) with [94%N]. simpl. lia. }
  destruct (Direct.namedCaptureRe s) as [n|] eqn:Hcapture.
  { unfold Direct.namedCaptureRe in Hcapture.
    destruct (startsWith s (js "(?P<")) eqn:Hs; [|discriminate].
    destruct (runLength isWordChar (drop 4 s) =? 0)%nat; [discriminate|].
    destruct (drop (runLength isWordChar (drop 4 s)) (drop 4 s))
      as [|c t] eqn:Hrest; [discriminate|].
    destruct (c =? 62)%N; [|discriminate].
    destruct (Direct.lazyDotsParen t) as [k|] eqn:Hk; [|discriminate].
    injection Hcapture as <-. intros [= <- <-].
    apply lazyDotsParen_bound in Hk.
    apply (f_equal length) in Hrest. rewrite !length_drop in Hrest.
    simpl in Hrest.
    rewrite replacer_namedCapture by (apply startsWith_take; [done | simpl; lia]).
    rewrite length_app, length_drop, length_take.
    change (length (js "(?")) with 2%nat. lia. }
  destruct (Direct.namedReferenceRe s) as [[n g]|] eqn:Href.
  { unfold Direct.namedReferenceRe in Href.
    destruct (startsWith s (js "(?P=")) eqn:Hs; [|discriminate].
    destruct (runLength isWordChar (drop 4 s) =? 0)%nat; [discriminate|].
    destruct (drop (runLength isWordChar (drop 4 s)) (drop 4 s))
      as [|c t] eqn:Hrest; [discriminate|].
    destruct (c =? 41)%N; [|discriminate].
    injection Href as <- <-. intros [= <- <-].
    apply (f_equal length) in Hrest. rewrite !length_drop in Hrest.
    simpl in Hrest.
    rewrite replacer_namedReference by (apply startsWith_take; [done | simpl; lia]).
    rewrite !length_app, length_take, length_drop.
    change (length (js "\k<")) with 3%nat.
    change (length (js ">")) with 1%nat. lia. }
  destruct (Direct.braceReText s) as [n|] eqn:Hbrace; [|discriminate].
  unfold Direct.braceReText in Hbrace.
  destruct (startsWith s (js "/^]/")) eqn:Hs; [|discriminate].
  injection Hbrace as <-. intros [= <- <-].
  apply startsWith_spec in Hs as [t ->]. simpl. split; [lia|].
  change (Util.replacer ([47; 94; 93; 47]%N, None)) with (@nil N). simpl. lia.
Qed.

(** [convertRegex] throws exactly on the five tests, and otherwise returns
    the global replacement. *)
Lemma convertRegex_Return (str r : jsstring) :
  Util.convertRegex str = Return r <->
  Util.unsupported str = false /\
  r = replaceAll Util.regexExec Util.replacer str.
Proof.
  unfold Util.convertRegex, Util.unsupported.
  destruct (includes str (js "\z")); [split; [discriminate | intros [[=] _]]|].
  destruct (includes str (js "(?s)")); [split; [discriminate | intros [[=] _]]|].
  destruct (includes str (js "(?x)")); [split; [discriminate | intros [[=] _]]|].
  destruct (includes str [10%N]); [split; [discriminate | intros [[=] _]]|].
  destruct (test Util.conditionRe str);
    [split; [discriminate | intros [[=] _]]|].
  simpl. split; [intros [= <-]; done | intros [_ ->]; done].
Qed.

Lemma convertRegex_Throw (str : jsstring) :
  (exists message, Util.convertRegex str = Throw message) <->
  Util.unsupported str = true.
Proof.
  destruct (Util.unsupported str) eqn:Hu.
  - split; [done|]. intros _.
    destruct (Util.convertRegex str) as [r|message] eqn:Hc; [|by eexists].
    apply convertRegex_Return in Hc as [Hc _]. congruence.
  - split; [|discriminate]. intros [message Hm].
    assert (Hr : Util.convertRegex str =
                 Return (replaceAll Util.regexExec Util.replacer str))
      by (by apply convertRegex_Return).
    congruence.
Qed.

Lemma rewritable_regexExec (str : jsstring) :
  Util.rewritable str = testAnywhere (fun t => isSome (Util.regexExec t)) str.
Proof.
  unfold Util.rewritable, test.
  induction str as [|c str IH]; simpl.
  - unfold Util.regexExec. by destruct (execAt Util.regex []) as [[? ?]|].
  - rewrite IH. f_equal.
    unfold Util.regexExec. by destruct (execAt Util.regex _) as [[? ?]|].
Qed.

(** *** A second translation of a pattern whose constructs stand apart *)

Lemma startsHead_app (r R : jsstring) (c : N) :
  Util.closedEnd (c :: r) = true ->
  Util.startsHead ((c :: r) ++ R) = Util.startsHead (c :: r).
Proof.
  unfold Util.closedEnd. intros Hend.
  destruct r as [|d [|e r]]; simpl in *.
  - apply negb_true_iff in Hend.
    apply orb_false_elim in Hend as [Hend H47].
    apply orb_false_elim in Hend as [Hend H63].
    apply orb_false_elim in Hend as [H92 H40].
    rewrite H92, H40, H47. by destruct R.
  - apply negb_true_iff in Hend.
    apply orb_false_elim in Hend as [Hend H47].
    apply orb_false_elim in Hend as [Hend H63].
    rewrite H63. by rewrite !andb_false_r.
  - done.
Qed.

Lemma closedEnd_tail (c d : N) (r : jsstring) :
  Util.closedEnd (c :: d :: r) = Util.closedEnd (d :: r).
Proof. done. Qed.

(** A text that holds no beginning of a construct and does not end in one
    can be put in front of such a text. *)
Lemma calm_app (r R : jsstring) :
  Util.calm r = true -> Util.closedEnd r = true -> Util.calm R = true ->
  Util.calm (r ++ R) = true.
Proof.
  intros Hr Hend HR. induction r as [|c r IH]; [done|].
  change (Util.calm ((c :: r) ++ R))
    with (negb (Util.startsHead ((c :: r) ++ R)) && Util.calm (r ++ R)).
  change (Util.calm (c :: r))
    with (negb (Util.startsHead (c :: r)) && Util.calm r) in Hr.
  apply andb_true_iff in Hr as [Hc Hr].
  rewrite startsHead_app, Hc by done. simpl andb.
  destruct r as [|d r]; [done|].
  apply IH; [done|]. by rewrite <- (closedEnd_tail c).
Qed.

Abbreviation renderedPieces pieces :=
  (concat (map (fun p : Util.Piece =>
                  match p with inl c => [c] | inr r => Util.replacer r end)
               pieces)).

Lemma nextRendered_spec (rest : list Util.Piece) :
  match Util.nextRendered rest with
  | None => renderedPieces rest = []
  | Some d => exists R, renderedPieces rest = d :: R
  end.
Proof.
  induction rest as [|[d|m] rest IH]; simpl; [done|by eexists|].
  destruct (Util.replacer m) as [|d r]; [done|]. simpl. by eexists.
Qed.

Lemma behindNext_spec (rest rest' : list Util.Piece) :
  Util.behindNext rest = Some rest' ->
  exists d, renderedPieces rest = d :: renderedPieces rest'.
Proof.
  induction rest as [|[d|m] rest IH]; simpl; [done| |].
  - intros [= <-]. by exists d.
  - destruct (Util.replacer m) as [|d r]; [done|done].
Qed.

Lemma charOk_startsHead (c : N) (rest : list Util.Piece) :
  Util.charOk c rest = true ->
  Util.startsHead (c :: renderedPieces rest) = false.
Proof.
  unfold Util.charOk.
  destruct (c =? 10)%N eqn:H10; [done|].
  destruct (c =? 92)%N eqn:H92.
  { pose proof (nextRendered_spec rest) as Hn.
    destruct (Util.nextRendered rest) as [d|].
    - destruct Hn as [R ->]. intros Hd. simpl. rewrite H10, H92.
      apply negb_true_iff in Hd. rewrite Hd.
      apply N.eqb_eq in H92. by subst c.
    - rewrite Hn. intros _. simpl. by rewrite H10. }
  destruct (c =? 47)%N eqn:H47.
  { pose proof (nextRendered_spec rest) as Hn.
    destruct (Util.nextRendered rest) as [d|].
    - destruct Hn as [R ->]. intros Hd. simpl. rewrite H10, H92, H47.
      apply negb_true_iff in Hd. rewrite Hd.
      apply N.eqb_eq in H47. by subst c.
    - rewrite Hn. intros _. simpl. by rewrite H10. }
  destruct (c =? 40)%N eqn:H40.
  { pose proof (nextRendered_spec rest) as Hn.
    destruct (Util.nextRendered rest) as [d|].
    - destruct (d =? 63)%N eqn:H63.
      + destruct (Util.behindNext rest) as [rest'|] eqn:Hb; [|done].
        apply behindNext_spec in Hb as [d' Hb]. destruct Hn as [R HR].
        assert (d' = d) as -> by congruence.
        pose proof (nextRendered_spec rest') as Hn'. rewrite Hb.
        destruct (Util.nextRendered rest') as [e|].
        * destruct Hn' as [R' ->]. intros He. simpl.
          rewrite H10, H92, H47. apply negb_true_iff in He. rewrite He.
          by rewrite !andb_false_r.
        * rewrite Hn'. intros _. simpl. rewrite H10, H92, H47.
          by rewrite !andb_false_r.
      + destruct Hn as [R ->]. intros _. simpl.
        rewrite H10, H92, H47, H63. by rewrite !andb_false_r.
    - rewrite Hn. intros _. simpl. by rewrite H10. }
  intros _. simpl. rewrite H10, H92, H47, H40.
  by destruct (renderedPieces rest).
Qed.

Lemma isolatedPieces_calm (pieces : list Util.Piece) :
  Util.isolatedPieces pieces = true -> Util.calm (renderedPieces pieces) = true.
Proof.
  induction pieces as [|[c|m] rest IH]; [done| |].
  - intros H. apply andb_true_iff in H as [Hc Hrest].
    change (renderedPieces (inl c :: rest)) with (c :: renderedPieces rest).
    change (Util.calm (c :: renderedPieces rest))
      with (negb (Util.startsHead (c :: renderedPieces rest)) &&
            Util.calm (renderedPieces rest)).
    rewrite (charOk_startsHead c rest Hc). by apply IH.
  - intros H. apply andb_true_iff in H as [H Hrest].
    apply andb_true_iff in H as [Hcalm Hend].
    change (renderedPieces (inr m :: rest))
      with (Util.replacer m ++ renderedPieces rest).
    apply calm_app; [done|done|by apply IH].
Qed.

(** Every construct that [regex] matches, and every construct that makes
    [convertRegex] throw, begins as [startsHead] says. *)
Lemma startsWith_startsHead (t h : jsstring) :
  In h [js "\a"; js "\A"; js "\z"; js "(?#"; js "(?P<"; js "(?P=";
        js "(?s)"; js "(?x)"; js "(?(?:"; js "/^]/"; [10%N]] ->
  startsWith t h = true -> Util.startsHead t = true.
Proof.
  intros Hin Hs. apply startsWith_spec in Hs as [rest ->].
  repeat (destruct Hin as [<- | Hin]; [reflexivity|]). destruct Hin.
Qed.

Lemma startsHead_regexExec (t : jsstring) :
  Util.startsHead t = false -> Util.regexExec t = None.
Proof.
  intros Hhead. rewrite regexExec_direct.
  assert (Hno : forall h,
             In h [js "\a"; js "\A"; js "\z"; js "(?#"; js "(?P<"; js "(?P=";
                   js "(?s)"; js "(?x)"; js "(?(?:"; js "/^]/"; [10%N]] ->
             startsWith t h = false).
  { intros h Hin. apply not_true_iff_false. intros Hs.
    apply (startsWith_startsHead t h Hin) in Hs. congruence. }
  unfold Direct.regexExec, Direct.bellRe, Direct.commentRe,
    Direct.stringStartRe, Direct.namedCaptureRe, Direct.namedReferenceRe,
    Direct.braceReText.
  rewrite (Hno (js "\a")), (Hno (js "(?#")), (Hno (js "\A")),
    (Hno (js "(?P<")), (Hno (js "(?P=")), (Hno (js "/^]/"));
    try done; simpl; tauto.
Qed.

Lemma calm_no_match (q : jsstring) :
  Util.calm q = true ->
  testAnywhere (fun t => isSome (Util.regexExec t)) q = false.
Proof.
  induction q as [|c q IH].
  - intros _. unfold testAnywhere. by rewrite startsHead_regexExec.
  - intros H.
    change (Util.calm (c :: q))
      with (negb (Util.startsHead (c :: q)) && Util.calm q) in H.
    apply andb_true_iff in H as [Hc Hq]. apply negb_true_iff in Hc.
    change (testAnywhere (fun t => isSome (Util.regexExec t)) (c :: q))
      with (isSome (Util.regexExec (c :: q)) ||
            testAnywhere (fun t => isSome (Util.regexExec t)) q).
    rewrite startsHead_regexExec by done. by apply IH.
Qed.

Lemma calm_includes (q h : jsstring) :
  In h [js "\a"; js "\A"; js "\z"; js "(?#"; js "(?P<"; js "(?P=";
        js "(?s)"; js "(?x)"; js "(?(?:"; js "/^]/"; [10%N]] ->
  Util.calm q = true -> includes q h = false.
Proof.
  intros Hin. induction q as [|c q IH].
  - intros _. simpl. rewrite orb_false_r. apply not_true_iff_false.
    intros Hs. by apply (startsWith_startsHead [] h Hin) in Hs.
  - intros H.
    change (Util.calm (c :: q))
      with (negb (Util.startsHead (c :: q)) && Util.calm q) in H.
    apply andb_true_iff in H as [Hc Hq]. apply negb_true_iff in Hc.
    change (includes (c :: q) h)
      with (startsWith (c :: q) h || includes q h).
    rewrite IH by done. rewrite orb_false_r. apply not_true_iff_false.
    intros Hs. apply (startsWith_startsHead _ h Hin) in Hs. congruence.
Qed.

Lemma calm_no_condition (q : jsstring) :
  Util.calm q = true -> test Util.conditionRe q = false.
Proof.
  assert (Hexec : forall t, Util.startsHead t = false ->
            isSome (execAt Util.conditionRe t) = false).
  { intros t Hhead. unfold execAt, Util.conditionRe.
    change (matchRe (Cat (Str (js "(?(?:")) ?r) t ∅ ?k)
      with (matchRe (Str (js "(?(?:")) t ∅
              (fun s' caps' => matchRe r s' caps' k)).
    rewrite matchRe_Str.
    destruct (startsWith t (js "(?(?:")) eqn:Hs; [|done].
    apply (startsWith_startsHead t) in Hs; [congruence|].
    simpl; tauto. }
  unfold test. induction q as [|c q IH].
  - intros _. unfold testAnywhere. by rewrite Hexec.
  - intros H.
    change (Util.calm (c :: q))
      with (negb (Util.startsHead (c :: q)) && Util.calm q) in H.
    apply andb_true_iff in H as [Hc Hq]. apply negb_true_iff in Hc.
    change (testAnywhere (fun t => isSome (execAt Util.conditionRe t)) (c :: q))
      with (isSome (execAt Util.conditionRe (c :: q)) ||
            testAnywhere (fun t => isSome (execAt Util.conditionRe t)) q).
    rewrite Hexec by done. by apply IH.
Qed.

(** A string in which no construct begins is translated into itself. *)
Lemma calm_fixed (q : jsstring) :
  Util.calm q = true -> Util.convertRegex q = Return q.
Proof.
  intros Hcalm. apply convertRegex_Return. split.
  - unfold Util.unsupported.
    rewrite !calm_includes, calm_no_condition; try done; simpl; tauto.
  - symmetry.
    apply (replaceAll_fixed Util.regexExec Util.replacer regex_match_shrinks).
    by apply calm_no_match.
Qed.

(** The second translation, for every string [q]: it returns [q] exactly
    when [q] holds none of the rejected constructs and none of the
    constructs that are rewritten; it throws on a rejected construct, and
    otherwise returns a shorter string. *)
Lemma convertRegex_again (q : jsstring) :
  (Util.convertRegex q = Return q <->
   Util.unsupported q = false /\ Util.rewritable q = false) /\
  (Util.unsupported q = true ->
   exists message, Util.convertRegex q = Throw message) /\
  (Util.unsupported q = false -> Util.rewritable q = true ->
   exists q', Util.convertRegex q = Return q' /\
              (length q' < length q)%nat).
Proof.
  split; [|split].
  - rewrite convertRegex_Return, rewritable_regexExec.
    rewrite <- (replaceAll_fixed Util.regexExec Util.replacer
                  regex_match_shrinks q).
    split; intros [Hu Hr]; (split; [exact Hu | by symmetry]).
  - apply convertRegex_Throw.
  - intros Hu Hr. exists (replaceAll Util.regexExec Util.replacer q). split.
    + by apply convertRegex_Return.
    + apply (rendered_length_lt Util.regexExec Util.replacer
               regex_match_shrinks).
      by rewrite <- rewritable_regexExec.
Qed.

(** C8, as the code has it: [convertRegex] is idempotent on the patterns
    whose constructs stand apart.  When the translation of [p] succeeds
    with [q], and [p] is [isolated] (behind every backslash, [(] and [/]
    that is passed over, the translation continues with a character that
    begins no construct with it, and what replaces a construct, such as
    the name and body of a named group, holds no beginning of a
    construct), then translating [q] again succeeds and returns [q]. *)
Theorem convertRegex_idempotent (p q : jsstring) :
  Util.convertRegex p = Return q ->
  Util.isolated p = true ->
  Util.convertRegex q = Return q.
Proof.
  intros Hp Hiso. apply convertRegex_Return in Hp as [_ ->].
  apply calm_fixed. unfold replaceAll. by apply isolatedPieces_calm.
Qed.

(** A pattern with an anchor, a named group with an escape in its body, a
    group, a back-reference and a comment: the second translation returns
    the first. *)
Lemma convertRegex_idempotent_witness :
  Util.convertRegex (js "\A(?P<word>\w+)\s(?:-(?P=word))*(?#again)$")
    = Return (js "^(?<word>\w+)\s(?:-\k<word>)*$") /\
  Util.isolated (js "\A(?P<word>\w+)\s(?:-(?P=word))*(?#again)$") = true /\
  Util.convertRegex (js "^(?<word>\w+)\s(?:-\k<word>)*$")
    = Return (js "^(?<word>\w+)\s(?:-\k<word>)*$").
Proof.
  split; [reflexivity|]. split; [reflexivity|].
  apply (convertRegex_idempotent
           (js "\A(?P<word>\w+)\s(?:-(?P=word))*(?#again)$")
           (js "^(?<word>\w+)\s(?:-\k<word>)*$")); reflexivity.
Defined.

(** C8 as the specification states it fails: a named group inside a named
    group is rewritten by the second translation only, and the translation
    of [\\az] is [\z], which the second translation rejects. *)
Lemma convertRegex_not_idempotent :
  Util.convertRegex (js "(?P<a>(?P<b>x))") = Return (js "(?<a>(?P<b>x))") /\
  Util.convertRegex (js "(?<a>(?P<b>x))") = Return (js "(?<a>(?<b>x))") /\
  Util.convertRegex (js "\\az") = Return (js "\z") /\
  Util.convertRegex (js "\z") = Throw (js "pattern \z not supported").
Proof. repeat split. Qed.

(** ** ProviderManager.getTriggerSnippets *)

Section ManagerFacts.

Context {W : Type}.

Abbreviation addItem := ProviderManager.addItem.

Lemma samePrefix_false (o item : SnippetEdit) :
  streq (edit_prefix o) (edit_prefix item) = false <->
  edit_prefix o <> edit_prefix item.
Proof. apply streq_false. Qed.

(** The manager's list is the fold of [addItem] over everything the
    providers returned, in the order they were asked. *)
Lemma getTriggerSnippets_fold (providers : ProviderManager.Providers W)
    (doc : Document) (position : Position) (w : W) (acc : list SnippetEdit) :
  fst (fold_left (ProviderManager.addProvider W doc position) providers (acc, w))
  = fold_left addItem (ProviderManager.providerItems W providers doc position w) acc.
Proof.
  revert acc w. induction providers as [|[name p] rest IH]; intros acc w.
  - reflexivity.
  - simpl. unfold ProviderManager.addProvider at 2. simpl.
    destruct (p doc position w) as [items w'] eqn:Hp.
    rewrite IH, fold_left_app. reflexivity.
Qed.

(** Every prefix offered is present in the result. *)
Lemma addItem_fold_covers (items : list SnippetEdit) :
  forall e, In e items ->
    exists e', In e' (fold_left addItem items []) /\
               edit_prefix e' = edit_prefix e.
Proof.
  induction items as [|x items IH] using rev_ind; intros e He; [destruct He|].
  rewrite fold_left_app. simpl. unfold addItem at 1.
  destruct (findIndex _ (fold_left addItem items [])) eqn:Hfind.
  - apply in_app_or in He as [He|[<-|[]]]; [by apply IH|].
    apply findIndex_Some in Hfind as [e' [Hin He']].
    exists e'. split; [done|]. by apply streq_true in He'.
  - apply in_app_or in He as [He|[<-|[]]].
    + destruct (IH e He) as [e' [Hin Heq]]. exists e'. split; [|done].
      apply in_or_app. by left.
    + exists x. split; [|done]. apply in_or_app. right. by left.
Qed.

(** No prefix occurs twice in the result. *)
Lemma addItem_fold_NoDup (items : list SnippetEdit) :
  NoDup (map edit_prefix (fold_left addItem items [])).
Proof.
  induction items as [|x items IH] using rev_ind; [constructor|].
  rewrite fold_left_app. simpl. unfold addItem at 1.
  destruct (findIndex _ (fold_left addItem items [])) eqn:Hfind; [done|].
  apply findIndex_None in Hfind.
  rewrite map_app. simpl. apply NoDup_app. split; [done|]. split.
  - intros pre Hpre Hx. apply list_elem_of_singleton in Hx. subst pre.
    apply list_elem_of_In, in_map_iff in Hpre as [o [Heq Hin]].
    rewrite Forall_forall in Hfind. apply list_elem_of_In in Hin.
    specialize (Hfind o Hin). by apply samePrefix_false in Hfind.
  - apply NoDup_singleton.
Qed.

(** What is kept for a prefix is its first occurrence. *)
Lemma addItem_fold_first (items : list SnippetEdit) :
  forall e, In e (fold_left addItem items []) ->
    exists before after, items = before ++ e :: after /\
      Forall (fun e' => edit_prefix e' <> edit_prefix e) before.
Proof.
  induction items as [|x items IH] using rev_ind; intros e He; [destruct He|].
  rewrite fold_left_app in He. simpl in He. unfold addItem at 1 in He.
  destruct (findIndex _ (fold_left addItem items [])) eqn:Hfind.
  - destruct (IH e He) as (before & after & -> & Hb).
    exists before, (after ++ [x]). split; [|done].
    by rewrite <- app_assoc.
  - apply in_app_or in He as [He|[<-|[]]].
    + destruct (IH e He) as (before & after & -> & Hb).
      exists before, (after ++ [x]). split; [|done].
      by rewrite <- app_assoc.
    + exists items, []. split; [done|].
      apply findIndex_None in Hfind.
      apply Forall_forall. intros e' He' Heq.
      apply list_elem_of_In in He'.
      destruct (addItem_fold_covers items e' He') as [o [Hin Ho]].
      rewrite Forall_forall in Hfind. apply list_elem_of_In in Hin.
      specialize (Hfind o Hin). apply samePrefix_false in Hfind. congruence.
Qed.

End ManagerFacts.

(** [regist] keeps the place of a known name and puts a new name last:
    the providers are asked in the order their names were first
    registered. *)
Lemma regist_names {W : Type} (providers : ProviderManager.Providers W)
    (provider : ProviderManager.Provider W) (name : jsstring) :
  map fst (ProviderManager.regist W providers provider name) =
  if existsb (fun n => streq n name) (map fst providers)
  then map fst providers
  else map fst providers ++ [name].
Proof.
  induction providers as [|[n p] rest IH]; simpl; [done|].
  destruct (streq n name); simpl; [done|]. rewrite IH.
  by destruct (existsb _ (map fst rest)).
Qed.

(** C10: [ProviderManager.getTriggerSnippets] returns at most one edit per
    prefix; every prefix some provider returned is present; the edit kept
    for a prefix is the first one with that prefix in the order the
    providers are asked, so an edit of an earlier provider wins over one of
    a later provider; and that order is the order of registration. *)
Theorem manager_getTriggerSnippets_dedup (W : Type)
    (providers : ProviderManager.Providers W) (doc : Document)
    (position : Position) (w : W) :
  let result := fst (ProviderManager.getTriggerSnippets W providers doc position w) in
  let offered := ProviderManager.providerItems W providers doc position w in
  NoDup (map edit_prefix result) /\
  (forall e, In e result ->
     exists before after, offered = before ++ e :: after /\
       Forall (fun e' => edit_prefix e' <> edit_prefix e) before) /\
  (forall e, In e offered ->
     exists e', In e' result /\ edit_prefix e' = edit_prefix e) /\
  (forall provider name,
     map fst (ProviderManager.regist W providers provider name) =
     if existsb (fun n => streq n name) (map fst providers)
     then map fst providers
     else map fst providers ++ [name]).
Proof.
  unfold ProviderManager.getTriggerSnippets. cbv zeta.
  rewrite getTriggerSnippets_fold. split; [|split; [|split]].
  - apply addItem_fold_NoDup.
  - apply addItem_fold_first.
  - apply addItem_fold_covers.
  - apply regist_names.
Qed.

(** Two providers offer an edit for [foo]: the one of the provider
    registered first is returned. *)
Lemma manager_getTriggerSnippets_dedup_witness :
  let first := fun (_ : Document) (_ : Position) (w : unit) =>
                 ([editOf fooPlain], w) in
  let second := fun (_ : Document) (_ : Position) (w : unit) =>
                  ([editOf fooGuarded], w) in
  let providers :=
    ProviderManager.regist unit
      (ProviderManager.regist unit [] first (js "ultisnips"))
      second (js "snipmate") in
  fst (ProviderManager.getTriggerSnippets unit providers (buffer "foo")
         (cursor 3) tt) = [editOf fooPlain] /\
  NoDup (map edit_prefix
           (fst (ProviderManager.getTriggerSnippets unit providers
                   (buffer "foo") (cursor 3) tt))).
Proof.
  cbv zeta. split; [reflexivity|].
  apply (manager_getTriggerSnippets_dedup unit).
Defined.

(** * Further properties of the code *)

(** ** util: flatten, tostr, trimQuote, distinct *)

Lemma flatten_concat {T} (arr : list (list T)) :
  Util.flatten arr = concat arr.
Proof.
  unfold Util.flatten.
  enough (H : forall acc, fold_left (fun p curr => p ++ curr) arr acc =
                          acc ++ concat arr) by apply (H []).
  induction arr as [|x arr IH]; intros acc; simpl.
  - by rewrite app_nil_r.
  - by rewrite IH, app_assoc.
Qed.

(** [tostr] returns one character of the 64-character alphabet for every
    byte, and only the byte modulo 64 matters. *)
Theorem tostr_alphabet (bytes : list N) :
  length (Util.tostr bytes) = length bytes /\
  Forall (fun c => In c Util.BASE64) (Util.tostr bytes) /\
  Util.tostr (map (fun b => b mod 64)%N bytes) = Util.tostr bytes.
Proof.
  unfold Util.tostr. induction bytes as [|b bytes (IHl & IHa & IHm)].
  - by repeat split.
  - cbn [map concat]. unfold jsstring in *.
    assert (Hlt : (N.to_nat (b mod 64) < length Util.BASE64)%nat).
    { change (length Util.BASE64) with 64%nat.
      pose proof (N.mod_upper_bound b 64). lia. }
    apply lookup_lt_is_Some in Hlt as [c Hc].
    rewrite N.Div0.mod_mod, Hc. cbn [app length].
    split; [by rewrite IHl|]. split; [|by rewrite IHm].
    constructor; [|done]. apply list_elem_of_In.
    by eapply list_elem_of_lookup_2.
Qed.

(** [trimQuote] drops the first and the last character of a string that
    starts with a quote, whatever the last character is; a string that is
    only a quote becomes empty, and a string that does not start with a
    quote is returned as it is. *)
Theorem trimQuote_cases (s : jsstring) (c : N) :
  Util.trimQuote (34%N :: s ++ [c]) = s /\
  Util.trimQuote (39%N :: s ++ [c]) = s /\
  Util.trimQuote [34%N] = [] /\
  Util.trimQuote [39%N] = [] /\
  (head s <> Some 34%N -> head s <> Some 39%N -> Util.trimQuote s = s).
Proof.
  assert (Hslice : forall q, slice (q :: s ++ [c]) 1 (-1) = s).
  { intros q. unfold slice.
    change (1 <? 0) with false. change (-1 <? 0) with true. cbv iota.
    replace (length (q :: s ++ [c])) with (S (S (length s)))
      by (simpl; rewrite length_app; simpl; lia).
    rewrite Z.min_l, Z.max_l by lia.
    replace (Z.to_nat (Z.of_nat (S (S (length s))) + -1 - 1))
      with (length s) by lia.
    change (Z.to_nat 1) with 1%nat. simpl drop. rewrite drop_0.
    by rewrite take_app_length. }
  split; [|split; [|split; [|split]]].
  - unfold Util.trimQuote. simpl startsWith. apply Hslice.
  - unfold Util.trimQuote. simpl startsWith. apply Hslice.
  - reflexivity.
  - reflexivity.
  - intros H34 H39. unfold Util.trimQuote.
    destruct s as [|d s']; [done|]. simpl in *.
    repeat case_bool_decide; simpl; congruence.
Qed.

Section DistinctFacts.

Context {T : Type} `{EqDecision T}.




Lemma distinctStep_fold (keyFn : T -> jsstring) (array : list T) :
  forall (seen : gset jsstring) (kept : list T),
  (forall k, (k ∈ seen) <-> (k ∈ map keyFn kept)) ->
  NoDup (map keyFn kept) ->
  let result := snd (fold_left (Util.distinctStep keyFn) array (seen, kept)) in
  NoDup (map keyFn result) /\
  (exists added, result = kept ++ added /\ added `sublist_of` array /\
     forall y, y ∈ added ->
       exists before after, array = before ++ y :: after /\
         (keyFn y ∉ map keyFn kept) /\
         Forall (fun x => keyFn x <> keyFn y) before) /\
  (forall x, x ∈ array -> keyFn x ∈ map keyFn result).
Proof.
  induction array as [|x array IH]; intros seen kept Hseen Hnd; cbv zeta.
  - simpl. split; [done|]. split.
    + exists []. rewrite app_nil_r. repeat split; [done|].
      by intros y ?%elem_of_nil.
    + by intros x ?%elem_of_nil.
  - simpl.
    assert (Hstep : Util.distinctStep keyFn (seen, kept) x =
                    if bool_decide (keyFn x ∈ seen) then (seen, kept)
                    else ({[keyFn x]} ∪ seen, kept ++ [x])) by done.
    rewrite Hstep. clear Hstep. case_bool_decide as Hx.
    + destruct (IH seen kept Hseen Hnd)
        as (IHn & (added & Hres & Hsub & Hfirst) & IHc).
      rewrite Hres in *. clear Hres.
      split; [done|]. split.
      * exists added. split; [done|]. split; [by apply sublist_cons|].
        intros y Hy. destruct (Hfirst y Hy) as (before & after & -> & Hnew & Hall).
        exists (x :: before), after. split; [done|]. split; [done|].
        constructor; [|done]. intros Heq. apply Hnew. rewrite <- Heq.
        by apply Hseen.
      * intros z [-> | Hz]%elem_of_cons; [|by apply IHc].
        rewrite map_app, elem_of_app. left. by apply Hseen.
    + destruct (IH ({[keyFn x]} ∪ seen) (kept ++ [x]))
        as (IHn & (added & Hres & Hsub & Hfirst) & IHc).
      * intros k. rewrite elem_of_union, elem_of_singleton, map_app, elem_of_app.
        simpl. rewrite list_elem_of_singleton, Hseen. tauto.
      * rewrite map_app. simpl. apply NoDup_app. split; [done|]. split.
        -- intros k Hk ->%list_elem_of_singleton. apply Hx. by apply Hseen.
        -- apply NoDup_singleton.
      * rewrite Hres in *. clear Hres. split; [done|]. split.
        -- exists (x :: added). rewrite <- app_assoc. split; [done|].
           split; [by apply sublist_skip|].
           intros y [-> | Hy]%elem_of_cons.
           ++ exists [], array. split; [done|]. split; [|constructor].
              intros Hk. apply Hx. by apply Hseen.
           ++ destruct (Hfirst y Hy) as (before & after & -> & Hnew & Hall).
              rewrite map_app, elem_of_app in Hnew. simpl in Hnew.
              rewrite list_elem_of_singleton in Hnew.
              exists (x :: before), after. split; [done|]. split; [tauto|].
              constructor; [|done]. intros Heq. apply Hnew. by right.
        -- intros z [-> | Hz]%elem_of_cons; [|by apply IHc].
           rewrite !map_app, !elem_of_app. simpl.
           rewrite list_elem_of_singleton. tauto.
Qed.

(** [distinct(array, keyFn)] keeps, for every key, the first element with
    that key: no two elements of the result have the same key, every key
    of the array is the key of an element of the result, the order of the
    array is kept, and no element before a kept one has its key. *)
Theorem distinctBy_first_per_key (keyFn : T -> jsstring) (array : list T) :
  NoDup (map keyFn (Util.distinctBy keyFn array)) /\
  Util.distinctBy keyFn array `sublist_of` array /\
  (forall x, x ∈ array ->
     keyFn x ∈ map keyFn (Util.distinctBy keyFn array)) /\
  (forall y, y ∈ Util.distinctBy keyFn array ->
     exists before after, array = before ++ y :: after /\
       Forall (fun x => keyFn x <> keyFn y) before).
Proof.
  destruct (distinctStep_fold keyFn array ∅ [])
    as (Hn & (added & Hres & Hsub & Hfirst) & Hc).
  - intros k. simpl. rewrite elem_of_nil. set_solver.
  - constructor.
  - unfold Util.distinctBy. simpl in Hres. rewrite Hres in *.
    split; [done|]. split; [done|]. split; [done|].
    intros y Hy. destruct (Hfirst y Hy) as (before & after & -> & _ & Hall).
    by exists before, after.
Qed.

End DistinctFacts.

(** ** util: replaceText *)

Lemma charText_lookup (content : jsstring) (i : Z) (c : N) :
  0 <= i -> content !! Z.to_nat i = Some c -> charText content i = [c].
Proof.
  intros Hi Hc. unfold charText.
  destruct (Z.ltb_spec i 0) as [?|_]; [lia|]. by rewrite Hc.
Qed.

(** Behind the item, or without one, the loop copies the rest. *)
Lemma replaceLoop_copy (content : jsstring) (item : option Util.ReplaceItem) :
  forall (fuel : nat) (i : Z) (res : jsstring),
  0 <= i -> (0 < fuel)%nat -> Z.of_nat (length content) - i < Z.of_nat fuel ->
  (forall it, item = Some it ->
     Util.ri_index it < i \/ Z.of_nat (length content) <= Util.ri_index it) ->
  Util.replaceLoop fuel content item i res =
  Some (res ++ drop (Z.to_nat i) content).
Proof.
  induction fuel as [|fuel IH]; intros i res Hi Hpos Hfuel Hitem; [lia|].
  cbn [Util.replaceLoop].
  destruct (Z.ltb_spec i (Z.of_nat (length content))) as [Hlt | Hge].
  - destruct (lookup_lt_is_Some_2 content (Z.to_nat i)) as [c Hc]; [lia|].
    assert (Hnext : Util.replaceLoop fuel content item (i + 1)
                      (res ++ charText content i) =
                    Some (res ++ drop (Z.to_nat i) content)).
    { rewrite IH; [|lia|lia|lia|].
      - rewrite (charText_lookup content i c Hi Hc), <- app_assoc.
        replace (Z.to_nat (i + 1)) with (S (Z.to_nat i)) by lia.
        by rewrite (drop_S content c (Z.to_nat i) Hc).
      - intros it Hit. destruct (Hitem it Hit); lia. }
    destruct item as [it|]; [|exact Hnext].
    destruct (Z.eqb_spec i (Util.ri_index it)) as [Heq | _]; [|exact Hnext].
    destruct (Hitem it eq_refl); lia.
  - rewrite drop_ge by lia. by rewrite app_nil_r.
Qed.

(** In front of the item the loop copies; at the item it appends the new
    text and leaves out the character at the index and [length] more. *)
Lemma replaceLoop_item (content : jsstring) (it : Util.ReplaceItem) :
  0 <= Util.ri_length it ->
  Util.ri_index it < Z.of_nat (length content) ->
  forall (fuel : nat) (i : Z) (res : jsstring),
  0 <= i <= Util.ri_index it ->
  Z.of_nat (length content) - i < Z.of_nat fuel ->
  Util.replaceLoop fuel content (Some it) i res =
  Some (res ++
        take (Z.to_nat (Util.ri_index it - i)) (drop (Z.to_nat i) content) ++
        Util.ri_newText it ++
        drop (Z.to_nat (Util.ri_index it + Util.ri_length it + 1)) content).
Proof.
  intros Hlen Hidx.
  induction fuel as [|fuel IH]; intros i res Hi Hfuel; [lia|].
  cbn [Util.replaceLoop].
  destruct (Z.ltb_spec i (Z.of_nat (length content))) as [Hlt | Hge]; [|lia].
  destruct (Z.eqb_spec i (Util.ri_index it)) as [Heq | Hne].
  - rewrite replaceLoop_copy; [|lia|lia|lia|].
    + subst i. rewrite Z.sub_diag. simpl take. by rewrite <- app_assoc.
    + intros it' [= <-]. left. lia.
  - destruct (lookup_lt_is_Some_2 content (Z.to_nat i)) as [c Hc]; [lia|].
    rewrite IH by lia.
    rewrite (charText_lookup content i c (proj1 Hi) Hc), <- app_assoc.
    f_equal.
    replace (Z.to_nat (Util.ri_index it - i))
      with (S (Z.to_nat (Util.ri_index it - (i + 1)))) by lia.
    rewrite (drop_S content c (Z.to_nat i) Hc).
    replace (Z.to_nat (i + 1)) with (S (Z.to_nat i)) by lia. done.
Qed.

(** An item of negative length inside the content sends the loop back
    for ever. *)
Lemma replaceLoop_back (content : jsstring) (it : Util.ReplaceItem) :
  Util.ri_length it < 0 ->
  Util.ri_index it < Z.of_nat (length content) ->
  forall (fuel : nat) (i : Z) (res : jsstring),
  i <= Util.ri_index it ->
  Util.replaceLoop fuel content (Some it) i res = None.
Proof.
  intros Hlen Hidx.
  induction fuel as [|fuel IH]; intros i res Hi; [done|].
  cbn [Util.replaceLoop].
  destruct (Z.ltb_spec i (Z.of_nat (length content))) as [Hlt | Hge]; [|lia].
  destruct (Z.eqb_spec i (Util.ri_index it)) as [Heq | Hne];
    apply IH; lia.
Qed.

Lemma insertSorted_least (x : Util.ReplaceItem) (l : list Util.ReplaceItem) :
  (forall h t, l = h :: t ->
     Forall (fun y => Util.ri_index h <= Util.ri_index y) t) ->
  forall h t,
    insertSorted (fun a b => Util.ri_index a - Util.ri_index b) x l = h :: t ->
    Forall (fun y => Util.ri_index h <= Util.ri_index y) t.
Proof.
  intros Hl h t. destruct l as [|e l]; simpl.
  - intros [= <- <-]. constructor.
  - specialize (Hl e l eq_refl).
    destruct (Z.ltb_spec (Util.ri_index x - Util.ri_index e) 0) as [Hlt | Hge].
    + intros [= <- <-]. constructor; [lia|].
      eapply Forall_impl; [exact Hl|]. simpl. intros; lia.
    + intros [= <- <-].
      rewrite (insertSorted_Permutation _ x l).
      constructor; [lia|done].
Qed.

Lemma sortBy_least (items : list Util.ReplaceItem) :
  forall h t,
    sortBy (fun a b => Util.ri_index a - Util.ri_index b) items = h :: t ->
    In h items /\ forall x, In x items -> Util.ri_index h <= Util.ri_index x.
Proof.
  intros h t Hsorted.
  assert (Hleast : Forall (fun y => Util.ri_index h <= Util.ri_index y) t).
  { revert h t Hsorted. unfold sortBy.
    enough (H : forall acc,
              (forall h t, acc = h :: t ->
                 Forall (fun y => Util.ri_index h <= Util.ri_index y) t) ->
              forall h t,
                fold_left (fun acc x =>
                             insertSorted
                               (fun a b => Util.ri_index a - Util.ri_index b)
                               x acc) items acc = h :: t ->
                Forall (fun y => Util.ri_index h <= Util.ri_index y) t)
      by (apply (H []); intros ? ? [=]).
    induction items as [|x items IH]; intros acc Hacc; simpl.
    - exact Hacc.
    - apply IH. by apply insertSorted_least. }
  pose proof (sortBy_In (fun a b => Util.ri_index a - Util.ri_index b) items)
    as Hin.
  rewrite Hsorted in Hin. split.
  - apply Hin. by left.
  - intros x Hx. apply Hin in Hx as [<- | Hx]; [lia|].
    rewrite Forall_forall in Hleast. apply Hleast. by apply list_elem_of_In.
Qed.

(** [replaceText] applies one item only, the one with the least index (the
    first such in the array): without items, or when that index lies
    outside the content, the content is returned; otherwise the text in
    front of the index is kept, the new text follows, and the character at
    the index and [length] more characters are left out.  This is what a
    run of more rounds than the content has characters gives when the
    length is not negative; when the length is negative and the index lies
    inside the content, no number of rounds gives a result. *)
Theorem replaceText_least_index (content : jsstring)
    (items : list Util.ReplaceItem) (extra : nat) :
  let fuel := (S (length content) + extra)%nat in
  match items with
  | [] => Util.replaceText fuel content items = Some content
  | _ =>
      exists it, In it items /\
        (forall x, In x items -> Util.ri_index it <= Util.ri_index x) /\
        (0 <= Util.ri_length it ->
         Util.replaceText fuel content items =
         Some (if (0 <=? Util.ri_index it) &&
                  (Util.ri_index it <? Z.of_nat (length content))
               then take (Z.to_nat (Util.ri_index it)) content ++
                    Util.ri_newText it ++
                    drop (Z.to_nat (Util.ri_index it + Util.ri_length it + 1))
                         content
               else content)) /\
        (Util.ri_length it < 0 ->
         0 <= Util.ri_index it < Z.of_nat (length content) ->
         forall rounds, Util.replaceText rounds content items = None)
  end.
Proof.
  cbv zeta. destruct items as [|x items].
  - unfold Util.replaceText. simpl head.
    rewrite replaceLoop_copy; [by rewrite drop_0|lia|lia|lia|done].
  - unfold Util.replaceText.
    destruct (sortBy _ (x :: items)) as [|it rest] eqn:Hsorted.
    { pose proof (sortBy_Permutation
                    (fun a b => Util.ri_index a - Util.ri_index b)
                    (x :: items)) as Hperm.
      rewrite Hsorted in Hperm. by apply Permutation_nil_cons in Hperm. }
    destruct (sortBy_least _ _ _ Hsorted) as [Hin Hleast].
    exists it. split; [done|]. split; [done|].
    change (head (it :: rest)) with (Some it). split.
    + intros Hlen.
      destruct (Z.leb_spec 0 (Util.ri_index it)) as [H0 | Hneg];
        [destruct (Z.ltb_spec (Util.ri_index it) (Z.of_nat (length content)))
           as [Hlt | Hge]|]; simpl andb.
      * rewrite replaceLoop_item; [|done|done|lia|lia].
        simpl app. rewrite Z.sub_0_r. by rewrite drop_0.
      * rewrite replaceLoop_copy; [by rewrite drop_0|lia|lia|lia|].
        intros it' [= <-]. by right.
      * rewrite replaceLoop_copy; [by rewrite drop_0|lia|lia|lia|].
        intros it' [= <-]. left. lia.
    + intros Hlen Hidx rounds. apply replaceLoop_back; lia.
Qed.

(** ** headTail *)

Lemma trimStart_suffix (s : jsstring) : exists p, s = p ++ trimStart s.
Proof.
  induction s as [|c s [p IH]]; simpl; [by exists []|].
  destruct (isWhiteSpace c); [|by exists []].
  exists (c :: p). simpl. by rewrite <- IH.
Qed.

(** A trimmed string does not start with white space. *)
Lemma trim_head (s t : jsstring) (c : N) :
  trim s = c :: t -> isWhiteSpace c = false.
Proof.
  unfold trim. intros Ht.
  destruct (trimStart_suffix (rev (trimStart s))) as [p Hp].
  apply (f_equal (@rev N)) in Hp. rewrite rev_involutive, rev_app_distr in Hp.
  rewrite Ht in Hp. simpl in Hp. by apply trimStart_head in Hp.
Qed.

Lemma runLength_take (p : N -> bool) (s : jsstring) :
  Forall (fun c => p c = true) (take (runLength p s) s).
Proof.
  induction s as [|c s IH]; simpl; [constructor|].
  destruct (p c) eqn:Hc; simpl; by constructor.
Qed.

Lemma runLength_drop (p : N -> bool) (s : jsstring) :
  drop (runLength p s) s = [] \/
  exists c t, drop (runLength p s) s = c :: t /\ p c = false.
Proof.
  induction s as [|c s IH]; simpl; [by left|].
  destruct (p c) eqn:Hc; simpl; [done|]. right. by exists c, s.
Qed.

(** A greedy run gives nothing back when what follows always matches. *)
Lemma greedyStar_total {T} (p : N -> bool) (s : jsstring)
    (k : jsstring -> option T) :
  (forall t, is_Some (k t)) ->
  greedyStar p s k = k (drop (runLength p s) s).
Proof.
  intros Hk. induction s as [|c s IH]; simpl; [done|].
  destruct (p c) eqn:Hc; [|done].
  rewrite IH. simpl. by destruct (Hk (drop (runLength p s) s)) as [x ->].
Qed.

Lemma matchRe_Plus_total {T} (p : N -> bool) (s : jsstring)
    (caps : gmap nat jsstring)
    (k : jsstring -> gmap nat jsstring -> option T) :
  (forall t, is_Some (k t caps)) ->
  matchRe (Plus p) s caps k =
  if (runLength p s =? 0)%nat then None
  else k (drop (runLength p s) s) caps.
Proof.
  intros Hk. destruct s as [|c s]; simpl; [done|].
  destruct (p c) eqn:Hc; [|done]. simpl.
  by rewrite (greedyStar_total p s (fun rest => k rest caps)).
Qed.

Lemma matchRe_Cat {T} (a b : Re) (s : jsstring) (caps : gmap nat jsstring)
    (k : jsstring -> gmap nat jsstring -> option T) :
  matchRe (Cat a b) s caps k =
  matchRe a s caps (fun s' caps' => matchRe b s' caps' k).
Proof. done. Qed.

Lemma matchRe_Group {T} (i : nat) (a : Re) (s : jsstring)
    (caps : gmap nat jsstring)
    (k : jsstring -> gmap nat jsstring -> option T) :
  matchRe (Group i a) s caps k =
  matchRe a s caps
    (fun s' caps' => k s' (<[i := take (length s - length s') s]> caps')).
Proof. done. Qed.

Lemma matchRe_Opt {T} (a : Re) (s : jsstring) (caps : gmap nat jsstring)
    (k : jsstring -> gmap nat jsstring -> option T) :
  matchRe (Opt a) s caps k =
  match matchRe a s caps k with
  | Some x => Some x
  | None => k s caps
  end.
Proof. done. Qed.

(** What [headTail] returns, without the matcher: the first run of
    characters that are not white space, and behind the white space that
    follows it the rest of that line. *)
Lemma headTail_direct (line : jsstring) :
  Util.headTail line =
  let t := trim line in
  let n := runLength (fun c => negb (isWhiteSpace c)) t in
  let m := runLength isWhiteSpace (drop n t) in
  let r := drop m (drop n t) in
  if (n =? 0)%nat || (m =? 0)%nat then (t, [])
  else (take n t, take (runLength dot r) r).
Proof.
  unfold Util.headTail. cbv zeta. set (t := trim line).
  set (nw := fun c => negb (isWhiteSpace c)).
  unfold execAt, Util.headTailRe. fold nw.
  rewrite matchRe_Cat, matchRe_Group, matchRe_Plus_run.
  2:{ intros c u Hc. rewrite matchRe_Cat. unfold nw in Hc.
      apply negb_true_iff in Hc. simpl. by rewrite Hc. }
  destruct (runLength nw t =? 0)%nat eqn:Hn; [done|]. simpl orb.
  rewrite matchRe_Cat, matchRe_Plus_total.
  2:{ intros u. rewrite matchRe_Group, matchRe_Opt.
      destruct (matchRe (Plus dot) u _ _) as [x|] eqn:Hm; by eexists. }
  destruct (runLength isWhiteSpace (drop (runLength nw t) t) =? 0)%nat eqn:Hm;
    [done|].
  set (r := drop _ (drop _ t)).
  rewrite matchRe_Group, matchRe_Opt.
  rewrite matchRe_Plus_total by (intros u; by eexists).
  assert (Hlen : (length t - length (drop (runLength nw t) t))%nat =
                 runLength nw t)
    by (apply length_drop_sub, runLength_le).
  assert (Hlen2 : (length r - length (drop (runLength dot r) r))%nat =
                  runLength dot r)
    by (apply length_drop_sub, runLength_le).
  destruct (runLength dot r =? 0)%nat eqn:Hd.
  - apply Nat.eqb_eq in Hd. rewrite Nat.sub_diag, Hd. simpl take.
    rewrite lookup_insert_ne, lookup_insert by done.
    rewrite lookup_insert. by rewrite Hlen.
  - rewrite lookup_insert_ne, lookup_insert by done.
    rewrite lookup_insert. by rewrite Hlen, Hlen2.
Qed.

(** [headTail] splits the trimmed line at its first white space: the head
    holds no white space, the tail does not start with white space and
    holds no line terminator, and the trimmed line is the head, white
    space, the tail, and a rest that is empty or starts with a line
    terminator.  A line without white space inside is its own head, with
    an empty tail. *)
Theorem headTail_split (line : jsstring) :
  let hd := fst (Util.headTail line) in
  let tl := snd (Util.headTail line) in
  Forall (fun c => isWhiteSpace c = false) hd /\
  Forall (fun c => isLineTerminator c = false) tl /\
  (forall c, head tl = Some c -> isWhiteSpace c = false) /\
  (exists space rest,
     trim line = hd ++ space ++ tl ++ rest /\
     Forall (fun c => isWhiteSpace c = true) space /\
     (tl <> [] -> space <> []) /\
     (rest = [] \/
      exists c, head rest = Some c /\ isLineTerminator c = true)) /\
  (Forall (fun c => isWhiteSpace c = false) (trim line) ->
   Util.headTail line = (trim line, [])).
Proof.
  cbv zeta. rewrite headTail_direct. cbv zeta.
  set (t := trim line). set (nw := fun c => negb (isWhiteSpace c)).
  set (n := runLength nw t). set (m := runLength isWhiteSpace (drop n t)).
  set (r := drop m (drop n t)).
  assert (Hnw : Forall (fun c => isWhiteSpace c = false) (take n t)).
  { eapply Forall_impl; [apply (runLength_take nw)|].
    intros c Hc. by apply negb_true_iff in Hc. }
  assert (Hdots : Forall (fun c => isLineTerminator c = false)
                    (take (runLength dot r) r)).
  { eapply Forall_impl; [apply (runLength_take dot)|].
    intros c Hc. by apply negb_true_iff in Hc. }
  destruct (n =? 0)%nat eqn:Hn; simpl orb.
  { apply Nat.eqb_eq in Hn. simpl fst. simpl snd.
    assert (Ht : t = []).
    { destruct t as [|c u] eqn:Heq; [done|].
      apply trim_head in Heq. subst n. simpl in Hn. unfold nw in Hn.
      rewrite Heq in Hn. discriminate. }
    rewrite Ht. split; [constructor|]. split; [constructor|].
    split; [done|]. split; [|done].
    exists [], []. split; [done|]. split; [constructor|].
    split; [done|]. by left. }
  destruct (m =? 0)%nat eqn:Hm; simpl orb; simpl fst; simpl snd.
  { apply Nat.eqb_eq in Hm.
    assert (Hr : drop n t = []).
    { destruct (runLength_drop nw t) as [Hd | (c & u & Hd & Hc)]; [done|].
      fold n in Hd. subst m. rewrite Hd in Hm. simpl in Hm.
      unfold nw in Hc. apply negb_false_iff in Hc. rewrite Hc in Hm.
      discriminate. }
    assert (Ht : t = take n t) by (by rewrite <- (take_drop n t) at 1;
                                   rewrite Hr, app_nil_r).
    split; [by rewrite Ht|]. split; [constructor|]. split; [done|].
    split; [|done].
    exists [], []. rewrite !app_nil_r. split; [done|].
    split; [constructor|]. split; [done|]. by left. }
  split; [done|]. split; [done|]. split; [|split].
  - intros c Hc.
    destruct (runLength_drop isWhiteSpace (drop n t))
      as [Hd | (d & u & Hd & Hdw)]; fold m in Hd; fold r in Hd.
    + rewrite Hd in Hc. by rewrite take_nil in Hc.
    + rewrite Hd in Hc. destruct (runLength dot (d :: u)); [done|].
      simpl in Hc. congruence.
  - exists (take m (drop n t)), (drop (runLength dot r) r).
    split; [|split; [|split]].
    + rewrite (take_drop (runLength dot r) r). unfold r.
      by rewrite (take_drop m (drop n t)), (take_drop n t).
    + apply runLength_take.
    + intros _ Hnil. apply Nat.eqb_neq in Hm. apply Hm.
      apply (f_equal length) in Hnil. rewrite length_take in Hnil.
      simpl in Hnil. pose proof (runLength_le isWhiteSpace (drop n t)).
      fold m in H. lia.
    + destruct (runLength_drop dot r) as [Hd | (c & u & Hd & Hc)];
        [by left|].
      right. exists c. rewrite Hd. split; [done|].
      by apply negb_false_iff in Hc.
  - intros Hall. exfalso. apply Nat.eqb_neq in Hm.
    destruct (drop n t) as [|c u] eqn:Hd; [by apply Hm|].
    assert (Hin : In c t).
    { rewrite <- (take_drop n t), Hd. apply in_or_app. right. by left. }
    rewrite Forall_forall in Hall.
    assert (Hc : isWhiteSpace c = false)
      by (apply Hall; by apply list_elem_of_In).
    subst m. simpl in Hm. rewrite Hc in Hm. by apply Hm.
Qed.

(** ** util: getRegexText *)

(** A global replacement by the empty string leaves a subsequence. *)
Lemma replaceAll_empty_sublist {R} (matchAt : jsstring -> option (nat * R))
    (s : jsstring) :
  forall skip,
    concat (map (fun p : N + R => match p with inl c => [c] | inr _ => [] end)
                (scan matchAt skip s)) `sublist_of` s.
Proof.
  induction s as [|c s IH]; intros skip; simpl; [done|].
  destruct skip as [|k]; [|by apply sublist_cons].
  destruct (matchAt (c :: s)) as [[len r]|]; simpl.
  - by apply sublist_cons.
  - by apply sublist_skip.
Qed.

(** Replacing every [c] by the empty string leaves no [c]. *)
Lemma replaceAll_char_removed (c : N) (s : jsstring) :
  forall skip,
    ~ In c (concat (map (fun p : N + unit =>
                           match p with inl d => [d] | inr _ => [] end)
                        (scan (execLength (Chr c)) skip s))).
Proof.
  induction s as [|d s IH]; intros skip; simpl; [by intros []|].
  destruct skip as [|k]; [|apply IH].
  unfold execLength at 1, execAt. cbn [matchRe].
  destruct (N.eqb_spec d c) as [-> | Hne]; simpl.
  - apply IH.
  - intros [? | Hin]; [congruence|]. by apply (IH 0%nat).
Qed.

(** [getRegexText] only takes characters away, and no backslash is left in
    its result. *)
Theorem getRegexText_sublist (str : jsstring) :
  Util.getRegexText str `sublist_of` str /\
  ~ In 92%N (Util.getRegexText str).
Proof.
  split; [|apply (replaceAll_char_removed 92 _ 0)].
  unfold Util.getRegexText. cbv zeta. unfold replaceAll.
  etransitivity; [apply replaceAll_empty_sublist|].
  etransitivity; [apply replaceAll_empty_sublist|].
  assert (Hlast : forall t, slice t 0 (-1) `sublist_of` t).
  { intros t. unfold slice. cbv zeta.
    etransitivity; [apply sublist_take | apply sublist_drop]. }
  destruct (startsWith str (js "^")).
  - destruct (endsWith (drop 1 str) (js "$")).
    + etransitivity; [apply Hlast | apply sublist_drop].
    + apply sublist_drop.
  - destruct (endsWith str (js "$")); [apply Hlast | done].
Qed.

(** ** split and join *)

Lemma splitOn_head (c : N) (s : jsstring) :
  exists piece rest, splitOn c s = piece :: rest /\ ~ In c piece /\
    (rest = [] /\ s = piece \/
     exists t, rest = splitOn c t /\ s = piece ++ c :: t).
Proof.
  induction s as [|d s (piece & rest & IH & Hnot & Hs)]; simpl.
  - exists [], []. split; [done|]. split; [by intros []|]. by left.
  - destruct (N.eqb_spec d c) as [-> | Hne].
    + exists [], (splitOn c s). split; [done|]. split; [by intros []|].
      right. by exists s.
    + rewrite IH. exists (d :: piece), rest. split; [done|].
      split; [intros [? | ?]; congruence|].
      destruct Hs as [[-> ->] | (t & -> & ->)]; [by left|].
      right. by exists t.
Qed.

Lemma splitOn_pieces (c : N) (s : jsstring) :
  Forall (fun piece => ~ In c piece) (splitOn c s).
Proof.
  induction s as [|d s IH]; simpl.
  - constructor; [by intros []|constructor].
  - destruct (N.eqb_spec d c) as [-> | Hne].
    + constructor; [by intros []|done].
    + destruct (splitOn c s) as [|piece rest]; [repeat constructor|].
      * intros [? | []]. congruence.
      * inversion IH; subst. constructor; [|done].
        intros [? | ?]; congruence.
Qed.

Lemma splitOn_app (c : N) (piece t : jsstring) :
  ~ In c piece -> splitOn c (piece ++ c :: t) = piece :: splitOn c t.
Proof.
  induction piece as [|d piece IH]; intros Hnot; simpl.
  - by rewrite N.eqb_refl.
  - destruct (N.eqb_spec d c) as [-> | Hne]; [exfalso; apply Hnot; by left|].
    rewrite IH; [done|]. intros ?. apply Hnot. by right.
Qed.

Lemma splitOn_whole (c : N) (piece : jsstring) :
  ~ In c piece -> splitOn c piece = [piece].
Proof.
  induction piece as [|d piece IH]; intros Hnot; simpl; [done|].
  destruct (N.eqb_spec d c) as [-> | Hne]; [exfalso; apply Hnot; by left|].
  rewrite IH; [done|]. intros ?. apply Hnot. by right.
Qed.

(** Splitting what was joined gives the pieces back, when no piece holds
    the separator. *)
Lemma splitOn_joinWith (c : N) (l : list jsstring) :
  l <> [] -> Forall (fun piece => ~ In c piece) l ->
  splitOn c (joinWith [c] l) = l.
Proof.
  induction l as [|x l IH]; intros Hne Hall; [done|].
  inversion Hall as [|? ? Hx Hl]; subst.
  destruct l as [|y l]; simpl.
  - by apply splitOn_whole.
  - rewrite splitOn_app by done. f_equal. by apply IH.
Qed.

Lemma joinWith_splitOn (c : N) (s : jsstring) :
  joinWith [c] (splitOn c s) = s.
Proof.
  induction s as [|d s IH]; simpl; [done|].
  destruct (N.eqb_spec d c) as [-> | Hne].
  - destruct (splitOn c s) as [|piece rest] eqn:Hsp.
    + destruct (splitOn_head c s) as (? & ? & ? & _); congruence.
    + simpl in *. by rewrite IH.
  - destruct (splitOn c s) as [|piece rest] eqn:Hsp.
    + destruct (splitOn_head c s) as (? & ? & ? & _); congruence.
    + destruct rest; simpl in *; by rewrite <- IH.
Qed.

(** ** filetypeFromBasename *)


(** ** addPythonTryCatch *)

(** On Vim the code is wrapped line by line: the result has three lines in
    front, then every line of the code behind four spaces, in order, then
    two lines; joining the lines of the code again gives the code.
    Elsewhere the code is returned as it is. *)
Theorem addPythonTryCatch_lines (code : jsstring) :
  splitOn 10 (addPythonTryCatch true code) =
    [js "import traceback, vim"; js "vim.vars['errmsg'] = ''"; js "try:"] ++
    map (fun ln => js "    " ++ ln) (splitOn 10 code) ++
    [js "except Exception as e:";
     js "    vim.vars['errmsg'] = traceback.format_exc()"] /\
  joinWith [10%N] (splitOn 10 code) = code /\
  addPythonTryCatch false code = code.
Proof.
  split; [|split; [apply joinWith_splitOn | done]].
  unfold addPythonTryCatch. cbv [negb]. cbv zeta.
  rewrite <- !app_assoc. apply splitOn_joinWith; [done|].
  repeat (apply Forall_cons; split; [vm_compute; intuition discriminate|]).
  apply Forall_app. split.
  - apply Forall_map. eapply Forall_impl; [apply splitOn_pieces|].
    intros piece Hnot. unfold compose. intros Hin.
    apply in_app_or in Hin as [Hin | Hin]; [|done].
    revert Hin. vm_compute. intuition discriminate.
  - repeat (apply Forall_cons; split; [vm_compute; intuition discriminate|]).
    constructor.
Qed.

(** ** getSnippetFiles *)

(** [getSnippetFiles] lists the paths of the loaded files whose filetype
    is among the filetypes of the scope; every definition of a listed file
    is among those [getSnippets] goes through.  The files of filetype
    [all] always contribute their definitions, but they are listed only
    when the filetypes of the scope include [all]: otherwise the list is
    the same with these files taken away. *)
Theorem getSnippetFiles_listed (getFiletypes : jsstring -> list jsstring)
    (snippetFiles : list UltiSnipsFile) (ft : jsstring) :
  (forall p,
     In p (getSnippetFiles getFiletypes snippetFiles ft) <->
     exists f, In f snippetFiles /\ file_filepath f = p /\
       arrayIncludes (getFiletypes ft) (filetype f) = true) /\
  (forall f s,
     In f snippetFiles -> In s (snippets f) ->
     arrayIncludes (getFiletypes ft) (filetype f) = true \/
     filetype f = js "all" ->
     In s (definitionsInOrder getFiletypes snippetFiles ft)) /\
  (arrayIncludes (getFiletypes ft) (js "all") = false ->
   getSnippetFiles getFiletypes snippetFiles ft =
   getSnippetFiles getFiletypes
     (List.filter (fun f => negb (streq (filetype f) (js "all"))) snippetFiles)
     ft).
Proof.
  split; [|split].
  - intros p. unfold getSnippetFiles. rewrite in_map_iff. split.
    + intros (f & <- & [Hf Hft]%filter_In). by exists f.
    + intros (f & Hf & <- & Hft). exists f. split; [done|].
      by apply filter_In.
  - intros f s Hf Hs Hscope. unfold definitionsInOrder.
    apply in_flat_map. exists f. split; [|done].
    apply sortBy_In, filter_In. split; [done|].
    unfold arrayIncludes in *. rewrite existsb_app.
    apply orb_true_iff.
    destruct Hscope as [Hscope | Hall]; [by left|]. right.
    rewrite Hall. cbn [existsb]. apply orb_true_iff. left.
    by apply streq_true.
  - intros Hall. unfold getSnippetFiles. f_equal.
    induction snippetFiles as [|f files IH]; [done|]. cbn [List.filter].
    destruct (streq (filetype f) (js "all")) eqn:Hft; cbn [negb].
    + apply streq_true in Hft. rewrite Hft, Hall. exact IH.
    + cbn [List.filter].
      destruct (arrayIncludes (getFiletypes ft) (filetype f)); [|exact IH].
      by rewrite IH.
Qed.

(** ** resolveSnippetBody: the indices that get a value *)

Section PlaceholderIndices.

Context {W : Type} (execute : jsstring -> W -> jsstring * W).

Lemma recordDefault_indices (values : gmap N jsstring) (w : W)
    (r : jsstring * option jsstring) (idx : N) :
  is_Some (fst (recordDefault W execute (values, w) r) !! idx) <->
  is_Some (values !! idx) \/ idx = parseInt (fst r).
Proof.
  unfold recordDefault.
  destruct (values !! parseInt (fst r)) as [v|] eqn:Hv; simpl.
  - destruct (negb _ && bool_decide _).
    + destruct (if isCodeBlock _ then _ else _) as [val w']. simpl.
      rewrite lookup_insert_is_Some. split.
      * intros [-> | [_ H]]; [by right | by left].
      * intros [H | ->]; [|by left].
        destruct (decide (parseInt (fst r) = idx)); [by left | by right].
    + simpl. split; [by left|]. intros [H | ->]; [done | by eexists].
  - destruct (if isCodeBlock _ then _ else _) as [val w']. simpl.
    rewrite lookup_insert_is_Some. split.
    + intros [-> | [_ H]]; [by right | by left].
    + intros [H | ->]; [|by left].
      destruct (decide (parseInt (fst r) = idx)); [by left | by right].
Qed.

Lemma recordDefault_fold_indices (rs : list (jsstring * option jsstring))
    (values : gmap N jsstring) (w : W) (idx : N) :
  is_Some (fst (fold_left (recordDefault W execute) rs (values, w)) !! idx) <->
  is_Some (values !! idx) \/ exists r, In r rs /\ parseInt (fst r) = idx.
Proof.
  revert values w. induction rs as [|r rs IH]; intros values w;
    cbn [fold_left].
  - simpl. split; [by left|]. by intros [H | (r & [] & _)].
  - pose proof (recordDefault_indices values w r idx) as Hstep.
    destruct (recordDefault W execute (values, w) r) as [values' w'].
    rewrite IH. simpl in Hstep. rewrite Hstep. split.
    + intros [[H | ->] | (r' & Hr' & Hidx)].
      * by left.
      * right. exists r. split; [by left | done].
      * right. exists r'. split; [by right | done].
    + intros [H | (r' & [<- | Hr'] & Hidx)].
      * left. by left.
      * left. by right.
      * right. by exists r'.
Qed.

Lemma recordTabstop_fold_indices (rs : list jsstring)
    (values : gmap N jsstring) (idx : N) :
  is_Some (fold_left recordTabstop rs values !! idx) <->
  is_Some (values !! idx) \/ exists r, In r rs /\ parseInt r = idx.
Proof.
  revert values. induction rs as [|r rs IH]; intros values; cbn [fold_left].
  - simpl. split; [by left|]. by intros [H | (r & [] & _)].
  - rewrite IH.
    assert (Hstep : is_Some (recordTabstop values r !! idx) <->
                    is_Some (values !! idx) \/ idx = parseInt r).
    { unfold recordTabstop.
      destruct (values !! parseInt r) as [v|] eqn:Hv; simpl.
      - split; [by left|]. intros [H | ->]; [done | by eexists].
      - rewrite lookup_insert_is_Some. split.
        + intros [-> | [_ H]]; [by right | by left].
        + intros [H | ->]; [|by left].
          destruct (decide (parseInt r = idx)); [by left | by right]. }
    rewrite Hstep. split.
    + intros [[H | ->] | (r' & Hr' & Hidx)].
      * by left.
      * right. exists r. split; [by left | done].
      * right. exists r'. split; [by right | done].
    + intros [H | (r' & [<- | Hr'] & Hidx)].
      * left. by left.
      * left. by right.
      * right. by exists r'.
Qed.

(** The indices that get a value are exactly the indices the body refers
    to, as a placeholder with braces or as a bare tabstop: no index that
    occurs is left without a value, and no other index gets one. *)
Theorem placeholderValues_indices (bdy : jsstring) (w : W) (idx : N) :
  is_Some (fst (placeholderValues W execute bdy w) !! idx) <->
  (exists r, In r (execAll placeholderExec bdy) /\ parseInt (fst r) = idx) \/
  (exists r, In r (execAll tabstopExec bdy) /\ parseInt r = idx).
Proof.
  unfold placeholderValues.
  pose proof (recordDefault_fold_indices (execAll placeholderExec bdy) ∅ w idx)
    as Hfirst.
  destruct (fold_left (recordDefault W execute) _ (∅, w)) as [values w'].
  simpl in *. rewrite recordTabstop_fold_indices, Hfirst.
  rewrite lookup_empty. split.
  - intros [[[? [=]] | H] | H]; [by left | by right].
  - intros [H | H]; [left; by right | by right].
Qed.

End PlaceholderIndices.

(** ** resolveSnippetBody: the tuple [t] *)









(** ** ProviderManager: getPrefixHead, getSnippets, provideCompletionItems *)

(** The loop of [getPrefixHead] stops at the last character that is not a
    word character, if there is one. *)
Lemma lastNonWord_spec (doc : Document) (pre : jsstring) (n : nat) :
  (n <= length pre)%nat ->
  let r := ProviderManager.lastNonWord doc pre n in
  (forall i c, (r < i < n)%nat -> pre !! i = Some c -> isWord doc c = true) /\
  ((r < n)%nat /\ (exists c, pre !! r = Some c /\ isWord doc c = false) \/
   r = 0%nat /\
   forall i c, (i < n)%nat -> pre !! i = Some c -> isWord doc c = true).
Proof.
  induction n as [|idx IH]; intros Hn; cbv zeta.
  - simpl. split; [intros; lia|]. right. split; [done|]. intros; lia.
  - simpl. destruct (pre !! idx) as [c|] eqn:Hc;
      [|apply lookup_ge_None in Hc; lia].
    destruct (isWord doc c) eqn:Hw; simpl.
    + destruct IH as [IHa IHb]; [lia|]. split.
      * intros i d Hi Hd. destruct (decide (i = idx)) as [-> | Hne].
        -- congruence.
        -- apply (IHa i); [lia|done].
      * destruct IHb as [[Hlt Hex] | [H0 Hall]].
        -- left. split; [lia|done].
        -- right. split; [done|]. intros i d Hi Hd.
           destruct (decide (i = idx)) as [-> | Hne]; [congruence|].
           apply (Hall i); [lia|done].
    + split; [intros; lia|]. left. split; [lia|]. by exists c.
Qed.

Lemma getPrefixHead_facts (doc : Document) (pre : jsstring) :
  let hd := ProviderManager.getPrefixHead doc pre in
  pre = hd ++ drop (length hd) pre /\
  (hd = [] -> Forall (fun c => isWord doc c = true) (drop 1 pre)) /\
  (hd <> [] ->
     (2 <= length hd)%nat /\
     (exists c, last hd = Some c /\ isWord doc c = false) /\
     Forall (fun c => isWord doc c = true) (drop (length hd) pre)).
Proof.
  cbv zeta. unfold ProviderManager.getPrefixHead.
  destruct (lastNonWord_spec doc pre (length pre) (le_n _)) as [Hafter Hat].
  set (r := ProviderManager.lastNonWord doc pre (length pre)) in *.
  destruct (r =? 0)%nat eqn:Hr.
  - apply Nat.eqb_eq in Hr. split; [done|]. split; [|done]. intros _.
    apply Forall_lookup. intros i c Hi. rewrite lookup_drop in Hi.
    pose proof (lookup_lt_Some _ _ _ Hi) as Hlt.
    destruct Hat as [[_ _] | [_ Hall]].
    + apply (Hafter (1 + i)%nat); [lia|done].
    + apply (Hall (1 + i)%nat); [lia|done].
  - apply Nat.eqb_neq in Hr.
    destruct Hat as [[Hlt (c & Hc & Hw)] | [H0 _]]; [|lia].
    assert (Hlen : length (take (r + 1) pre) = (r + 1)%nat)
      by (rewrite length_take; lia).
    split; [by rewrite Hlen, take_drop|]. split.
    + intros Hnil. apply (f_equal length) in Hnil. rewrite Hlen in Hnil.
      simpl in Hnil. lia.
    + intros _. split; [lia|]. split.
      * exists c. split; [|done].
        rewrite last_lookup, Hlen.
        replace (pred (r + 1)) with r by lia.
        rewrite lookup_take_lt by lia. done.
      * rewrite Hlen. apply Forall_lookup. intros i d Hi.
        rewrite lookup_drop in Hi.
        pose proof (lookup_lt_Some _ _ _ Hi) as Hlt'.
        apply (Hafter (r + 1 + i)%nat); [lia|done].
Qed.

(** [getPrefixHead] cuts the prefix behind its last character that is not
    a word character of the document: the prefix is the head followed by a
    rest of word characters, and a head that is not empty has at least two
    characters and ends with a character that is not a word character.
    The head is empty when, from the second character on, the prefix is
    made of word characters (a first character that is not a word
    character gives no head). *)
Theorem getPrefixHead_split (doc : Document) (pre : jsstring) :
  let hd := ProviderManager.getPrefixHead doc pre in
  pre = hd ++ drop (length hd) pre /\
  (hd = [] <-> Forall (fun c => isWord doc c = true) (drop 1 pre)) /\
  (hd <> [] ->
     (2 <= length hd)%nat /\
     (exists c, last hd = Some c /\ isWord doc c = false) /\
     Forall (fun c => isWord doc c = true) (drop (length hd) pre)).
Proof.
  cbv zeta. destruct (getPrefixHead_facts doc pre) as (Hsplit & Hnil & Hcons).
  split; [done|]. split; [|done]. split; [done|].
  intros Hall.
  destruct (ProviderManager.getPrefixHead doc pre) as [|c hd] eqn:Hhd; [done|].
  destruct Hcons as (Hlen & (d & Hlast & Hd) & _); [done|]. exfalso.
  assert (Hin : d ∈ drop 1 pre).
  { rewrite Hsplit. simpl. rewrite drop_0.
    destruct hd as [|c' hd]; [simpl in Hlen; lia|].
    apply elem_of_app. left.
    change (last (c :: c' :: hd)) with (last (c' :: hd)) in Hlast.
    apply last_Some in Hlast as [l' ->]. apply elem_of_app. right.
    apply list_elem_of_here. }
  rewrite Forall_forall in Hall. specialize (Hall d Hin). congruence.
Qed.

(** [ProviderManager.getSnippets] returns the snippets of all providers,
    provider after provider in the order of the registry and in the order
    each provider returns them, none left out and none merged; each one
    carries the name of the provider it comes from. *)
Theorem manager_getSnippets_tagged
    (providers : list (jsstring * ProviderManager.SnippetSource))
    (ft : jsstring) :
  map ProviderManager.snip (ProviderManager.getSnippets providers ft) =
    concat (map (fun entry => snd entry ft) providers) /\
  Forall (fun s =>
            exists entry, In entry providers /\
              ProviderManager.provider s = fst entry /\
              In (ProviderManager.snip s) (snd entry ft))
         (ProviderManager.getSnippets providers ft).
Proof.
  unfold ProviderManager.getSnippets. rewrite flatten_concat.
  induction providers as [|entry providers [IHm IHf]]; simpl.
  - split; [done|constructor].
  - rewrite map_app, IHm, map_map. simpl. rewrite map_id. split; [done|].
    apply Forall_app. split.
    + apply Forall_forall. intros s Hs. apply list_elem_of_In in Hs.
      apply in_map_iff in Hs as (x & <- & Hx).
      exists entry. simpl. auto.
    + eapply Forall_impl; [exact IHf|].
      intros s (e & He & Hp & Hs). exists e. auto.
Qed.

(** The body of the loop of [provideCompletionItems], with its three ways
    to skip a snippet set apart. *)
Lemma completionItem_cases (doc : Document) (position : Position)
    (input : jsstring) (col : Z) (ahead : jsstring)
    (s : ProviderManager.ProvidedSnippet) :
  let sn := ProviderManager.snip s in
  let hd := ProviderManager.getPrefixHead doc (prefix sn) in
  let cut := negb (length hd =? 0)%nat && endsWith ahead hd in
  let before := if cut then slice0 ahead (- Z.of_nat (length hd)) else ahead in
  let lbl := if cut then drop (length hd) (prefix sn) else prefix sn in
  let start :=
    if TriggerKind_eqb (triggerKind sn) InWord
    then character position - Z.of_nat (length (prefix sn))
    else if cut then col - Z.of_nat (length hd) else col in
  ProviderManager.completionItem doc position input col ahead s =
  if (length hd =? 0)%nat && (length input =? 0)%nat then None
  else if TriggerKind_eqb (triggerKind sn) LineBegin &&
          negb (length (trim before) =? 0)%nat then None
  else if TriggerKind_eqb (triggerKind sn) InWord &&
          negb (endsWith input (prefix sn)) then None
  else
    Some {| ProviderManager.label := lbl;
            ProviderManager.filterText := lbl;
            ProviderManager.detail := description sn;
            ProviderManager.insertTextFormat := 2;
            ProviderManager.data :=
              {| ProviderManager.data_provider := ProviderManager.provider s;
                 ProviderManager.data_body := body sn;
                 ProviderManager.data_character := Some start |};
            ProviderManager.textEdit :=
              Some {| ProviderManager.te_range :=
                        {| range_start :=
                             {| line := line position; character := start |};
                           range_end := position |};
                      ProviderManager.te_newText := lbl |} |}.
Proof.
  cbv zeta. unfold ProviderManager.completionItem. cbv zeta.
  destruct ((length (ProviderManager.getPrefixHead doc
                       (prefix (ProviderManager.snip s))) =? 0)%nat &&
            (length input =? 0)%nat); [done|].
  destruct position as [ln ch].
  destruct (negb _ && endsWith ahead _);
    destruct (triggerKind (ProviderManager.snip s)); simpl;
    try destruct (length (trim _) =? 0)%nat; simpl;
    try destruct (endsWith input _); simpl; reflexivity.
Qed.

(** What [provideCompletionItems] offers.  Without a document it offers
    nothing.  Otherwise every item comes from a snippet of
    [getSnippets]; with [head] the head of its prefix and [cut] saying
    that the head is not empty and ends the text [ahead] of the cursor
    column: the snippet has a head when nothing was typed ([input] is
    empty); if it is a LineBegin snippet, the text ahead (without the head
    when [cut]) is blank after trimming; if it is an InWord snippet,
    [input] ends with its prefix.  The item shows the prefix (without the
    head when [cut]), carries the provider's name and the body, and its
    edit ends at the cursor and starts on the same line: for an InWord
    snippet the length of the prefix before the cursor, otherwise at the
    column (minus the length of the head when [cut]); [data.character] is
    that start. *)
Theorem provideCompletionItems_items
    (providers : list (jsstring * ProviderManager.SnippetSource))
    (ft : jsstring) (doc : Document) (position : Position) (input : jsstring)
    (col : Z) :
  ProviderManager.provideCompletionItems providers ft None position input col
    = [] /\
  Forall
    (fun item =>
       exists s, In s (ProviderManager.getSnippets providers ft) /\
         let sn := ProviderManager.snip s in
         let ahead := slice0 (getline doc (line position)) col in
         let hd := ProviderManager.getPrefixHead doc (prefix sn) in
         let cut := negb (length hd =? 0)%nat && endsWith ahead hd in
         let before :=
           if cut then slice0 ahead (- Z.of_nat (length hd)) else ahead in
         (input = [] -> hd <> []) /\
         (triggerKind sn = LineBegin -> trim before = []) /\
         (triggerKind sn = InWord -> endsWith input (prefix sn) = true) /\
         ProviderManager.label item =
           (if cut then drop (length hd) (prefix sn) else prefix sn) /\
         ProviderManager.filterText item = ProviderManager.label item /\
         ProviderManager.detail item = description sn /\
         ProviderManager.data_provider (ProviderManager.data item) =
           ProviderManager.provider s /\
         ProviderManager.data_body (ProviderManager.data item) = body sn /\
         exists e,
           ProviderManager.textEdit item = Some e /\
           ProviderManager.te_newText e = ProviderManager.label item /\
           range_end (ProviderManager.te_range e) = position /\
           line (range_start (ProviderManager.te_range e)) = line position /\
           character (range_start (ProviderManager.te_range e)) =
             (if TriggerKind_eqb (triggerKind sn) InWord
              then character position - Z.of_nat (length (prefix sn))
              else if cut then col - Z.of_nat (length hd) else col) /\
           ProviderManager.data_character (ProviderManager.data item) =
             Some (character (range_start (ProviderManager.te_range e))))
    (ProviderManager.provideCompletionItems providers ft (Some doc) position
       input col).
Proof.
  split; [done|]. unfold ProviderManager.provideCompletionItems. cbv zeta.
  apply Forall_forall. intros item Hitem.
  apply list_elem_of_omap in Hitem as (s & Hs & Hmake).
  exists s. split; [by apply list_elem_of_In|].
  rewrite completionItem_cases in Hmake. cbv zeta in Hmake. cbv zeta.
  set (sn := ProviderManager.snip s) in *.
  set (ahead := slice0 (getline doc (line position)) col) in *.
  set (hd := ProviderManager.getPrefixHead doc (prefix sn)) in *.
  set (cut := negb (length hd =? 0)%nat && endsWith ahead hd) in *.
  destruct ((length hd =? 0)%nat && (length input =? 0)%nat) eqn:Hskip;
    [done|].
  destruct (TriggerKind_eqb (triggerKind sn) LineBegin &&
            negb (length (trim _) =? 0)%nat) eqn:Hbegin; [done|].
  destruct (TriggerKind_eqb (triggerKind sn) InWord &&
            negb (endsWith input (prefix sn))) eqn:Hword; [done|].
  injection Hmake as <-. simpl.
  split; [|split; [|split]].
  - intros -> Hnil. rewrite Hnil in Hskip. done.
  - intros Hk. rewrite Hk in Hbegin. simpl in Hbegin.
    apply negb_false_iff, Nat.eqb_eq in Hbegin.
    by destruct (trim _).
  - intros Hk. rewrite Hk in Hword. simpl in Hword.
    by apply negb_false_iff in Hword.
  - do 5 (split; [done|]). eexists. split; [done|]. simpl. done.
Qed.

(** A snippet of [getSnippets] is offered whenever none of the three
    tests skips it: its kind is checked for LineBegin and InWord only, so
    a SpaceBefore or WordBoundary snippet is offered on every line as soon
    as something was typed. *)
Theorem provideCompletionItems_offers
    (providers : list (jsstring * ProviderManager.SnippetSource))
    (ft : jsstring) (doc : Document) (position : Position) (input : jsstring)
    (col : Z) (s : ProviderManager.ProvidedSnippet) :
  let sn := ProviderManager.snip s in
  let ahead := slice0 (getline doc (line position)) col in
  let hd := ProviderManager.getPrefixHead doc (prefix sn) in
  let cut := negb (length hd =? 0)%nat && endsWith ahead hd in
  let before := if cut then slice0 ahead (- Z.of_nat (length hd)) else ahead in
  In s (ProviderManager.getSnippets providers ft) ->
  (input = [] -> hd <> []) ->
  (triggerKind sn = LineBegin -> trim before = []) ->
  (triggerKind sn = InWord -> endsWith input (prefix sn) = true) ->
  exists item,
    In item (ProviderManager.provideCompletionItems providers ft (Some doc)
               position input col) /\
    ProviderManager.label item =
      (if cut then drop (length hd) (prefix sn) else prefix sn) /\
    ProviderManager.data_provider (ProviderManager.data item) =
      ProviderManager.provider s /\
    ProviderManager.data_body (ProviderManager.data item) = body sn.
Proof.
  intros sn ahead hd cut before Hs Hinput Hbegin Hword.
  pose proof (completionItem_cases doc position input col ahead s) as Hcases.
  cbv zeta in Hcases. fold sn hd cut in Hcases. fold before in Hcases.
  assert (Hskip : (length hd =? 0)%nat && (length input =? 0)%nat = false).
  { apply andb_false_iff.
    destruct input as [|c input]; [|by right]. left.
    apply Nat.eqb_neq. intros Hlen. apply Hinput; [done|].
    by destruct hd. }
  assert (Hb : TriggerKind_eqb (triggerKind sn) LineBegin &&
               negb (length (trim before) =? 0)%nat = false).
  { destruct (triggerKind sn) eqn:Hk; try done. simpl.
    by rewrite Hbegin. }
  assert (Hw : TriggerKind_eqb (triggerKind sn) InWord &&
               negb (endsWith input (prefix sn)) = false).
  { destruct (triggerKind sn) eqn:Hk; try done. simpl.
    by rewrite Hword. }
  rewrite Hskip, Hb, Hw in Hcases.
  eexists. split.
  - unfold ProviderManager.provideCompletionItems. cbv zeta.
    apply list_elem_of_In, list_elem_of_omap. exists s.
    split; [by apply list_elem_of_In | exact Hcases].
  - done.
Qed.

(** Two snippets of one provider on the line [xfoo], four characters
    typed: the WordBoundary snippet [foo] is offered although [foo] does
    not start a word there. *)
Lemma provideCompletionItems_offers_witness :
  let providers :=
    [(js "ultisnips",
      fun _ : jsstring => [fooAt WordBoundary; fooAt LineBegin])] in
  let s := {| ProviderManager.snip := fooAt WordBoundary;
              ProviderManager.provider := js "ultisnips" |} in
  In s (ProviderManager.getSnippets providers python) /\
  exists item,
    In item (ProviderManager.provideCompletionItems providers python
               (Some (buffer "xfoo")) (cursor 4) (js "xfoo") 0) /\
    ProviderManager.label item = js "foo" /\
    ProviderManager.data_provider (ProviderManager.data item)
      = js "ultisnips" /\
    ProviderManager.data_body (ProviderManager.data item) = js "bar".
Proof.
  cbv zeta. split; [left; reflexivity|].
  apply (provideCompletionItems_offers
           [(js "ultisnips",
             fun _ : jsstring => [fooAt WordBoundary; fooAt LineBegin])]
           python (buffer "xfoo") (cursor 4) (js "xfoo") 0
           {| ProviderManager.snip := fooAt WordBoundary;
              ProviderManager.provider := js "ultisnips" |}).
  - left; reflexivity.
  - discriminate.
  - discriminate.
  - discriminate.
Defined.
